(** * Othello (Reversi): a shallow embedding of [src/reversi/othello.py]

    The board is the Python list of lists, cells are [None] or a [Color],
    coordinates and counters are Python integers (here [Z]).  Indexing
    follows Python: a negative index counts from the end, an index out of
    range raises [IndexError].  The [while] scans are written with fuel;
    section [Termination] shows that [SIZE] units always suffice. *)

From Stdlib Require Import ZArith Lia.
From stdpp Require Import base decidable option numbers list.

#[local] Open Scope Z_scope.

(** ** Results of Python code: a value, or a raised exception *)

Inductive exn : Type :=
  | IndexError
  | StopIteration.

Inductive res (A : Type) : Type :=
  | Ok (a : A)
  | Raise (e : exn)
  | OutOfFuel.

Arguments Ok {A} a.
Arguments Raise {A} e.
Arguments OutOfFuel {A}.

#[global] Instance res_ret : MRet res := λ A a, Ok a.

#[global] Instance res_bind : MBind res := λ A B k m,
  match m with
  | Ok a => k a
  | Raise e => Raise e
  | OutOfFuel => OutOfFuel
  end.

Fixpoint foldM {A S : Type} (f : S → A → res S) (s : S) (l : list A) : res S :=
  match l with
  | [] => Ok s
  | a :: l' => s' ← f s a; foldM f s' l'
  end.

(** ** Data model *)

Inductive Color : Type := BLACK | WHITE.

#[global] Instance Color_eq_dec : EqDecision Color.
Proof. solve_decision. Defined.

(** A cell of the board: [None] or a [Color], as in the Python list. *)
Abbreviation cell := (option Color).
Abbreviation Board := (list (list cell)).
Abbreviation Coordinate := (Z * Z)%type.

Definition directions : list (Z * Z) :=
  [(-1,-1); (-1,0); (-1,1); (0,-1); (0,1); (1,-1); (1,0); (1,1)].

Definition SIZE : Z := 8.

(** [turn = Color.BLACK if turn != Color.BLACK else Color.WHITE] *)
Definition switch_user (turn : Color) : Color :=
  if decide (turn ≠ BLACK) then BLACK else WHITE.

(** ** Python list indexing *)

(** [l[i]]: negative indices count from the end. *)
Definition py_norm (n i : Z) : Z := if i <? 0 then i + n else i.

Definition py_index {A : Type} (l : list A) (i : Z) : res A :=
  let j := py_norm (Z.of_nat (length l)) i in
  if (0 <=? j) && (j <? Z.of_nat (length l)) then
    match l !! Z.to_nat j with
    | Some a => Ok a
    | None => Raise IndexError
    end
  else Raise IndexError.

(** [l[i] = v] *)
Definition py_store {A : Type} (l : list A) (i : Z) (v : A) : res (list A) :=
  let j := py_norm (Z.of_nat (length l)) i in
  if (0 <=? j) && (j <? Z.of_nat (length l)) then Ok (<[Z.to_nat j := v]> l)
  else Raise IndexError.

(** [board[x][y]] *)
Definition getcell (board : Board) (x y : Z) : res cell :=
  r ← py_index board x; py_index r y.

(** [board[x][y] = v]; the rows of the board are distinct list objects (built
    by the comprehension in [play_game]), so the update touches one row. *)
Definition setcell (board : Board) (x y : Z) (v : cell) : res Board :=
  r ← py_index board x;
  r' ← py_store r y v;
  py_store board x r'.

(** [0 <= newx < SIZE and 0 <= newy < SIZE] *)
Definition on_board (x y : Z) : bool :=
  (0 <=? x) && (x <? SIZE) && ((0 <=? y) && (y <? SIZE)).

(** ** is_valid_move *)

(** The [while] loop of [is_valid_move] for one direction.  The result is
    [true] when the loop executes [return True], and [false] when it is left
    by [break] or by its condition. *)
Fixpoint valid_scan (fuel : nat) (board : Board) (turn : Color)
    (dx dy newx newy cnt : Z) : res bool :=
  match fuel with
  | O => OutOfFuel
  | S fuel' =>
    if on_board newx newy then
      c ← getcell board newx newy;
      if decide (c = None) then Ok false
      else if cnt =? 0 then
        if decide (c = Some turn) then Ok false
        else valid_scan fuel' board turn dx dy (newx + dx) (newy + dy) (cnt + 1)
      else
        if decide (c = Some turn) then Ok true
        else valid_scan fuel' board turn dx dy (newx + dx) (newy + dy) (cnt + 1)
    else Ok false
  end.

(** [for direction in directions: ...] followed by [return False]. *)
Fixpoint valid_dirs (fuel : nat) (board : Board) (turn : Color)
    (row col : Z) (ds : list (Z * Z)) : res bool :=
  match ds with
  | [] => Ok false
  | (dx, dy) :: ds' =>
    r ← valid_scan fuel board turn dx dy (row + dx) (col + dy) 0;
    if r : bool then Ok true else valid_dirs fuel board turn row col ds'
  end.

Definition is_valid_move_fuel (fuel : nat) (row col : Z) (turn : Color)
    (board : Board) : res bool :=
  c ← getcell board row col;
  if decide (c ≠ None) then Ok false
  else valid_dirs fuel board turn row col directions.

(** Fuel given to every line scan: one unit per evaluation of the loop
    condition; no scan on the 8x8 grid needs more (see [Termination]). *)
Definition scan_fuel : nat := Z.to_nat SIZE.

Definition is_valid_move (row col : Z) (turn : Color) (board : Board) : res bool :=
  is_valid_move_fuel scan_fuel row col turn board.

(** ** next_steps *)

(** The cells in the order of the two nested [range(SIZE)] loops. *)
Definition all_cells : list Coordinate :=
  i ← seqZ 0 SIZE; j ← seqZ 0 SIZE; [(i, j)].

Fixpoint next_steps_from (fuel : nat) (turn : Color) (board : Board)
    (cs : list Coordinate) : res (list Coordinate) :=
  match cs with
  | [] => Ok []
  | (i, j) :: cs' =>
    v ← is_valid_move_fuel fuel i j turn board;
    rest ← next_steps_from fuel turn board cs';
    Ok (if v : bool then (i, j) :: rest else rest)
  end.

Definition next_steps_fuel (fuel : nat) (turn : Color) (board : Board) :
    res (list Coordinate) :=
  next_steps_from fuel turn board all_cells.

Definition next_steps (turn : Color) (board : Board) : res (list Coordinate) :=
  next_steps_fuel scan_fuel turn board.

(** ** take_action *)

(** The [while] loop of [take_action] for one direction: the values of
    [valid] and [cnt] when the loop is left. *)
Fixpoint action_scan (fuel : nat) (board : Board) (turn : Color)
    (dx dy newx newy cnt : Z) : res (bool * Z) :=
  match fuel with
  | O => OutOfFuel
  | S fuel' =>
    if on_board newx newy then
      c ← getcell board newx newy;
      if decide (c = None) then Ok (false, cnt)
      else if cnt =? 0 then
        if decide (c = Some turn) then Ok (false, cnt)
        else action_scan fuel' board turn dx dy (newx + dx) (newy + dy) (cnt + 1)
      else
        if decide (c = Some turn) then Ok (true, cnt)
        else action_scan fuel' board turn dx dy (newx + dx) (newy + dy) (cnt + 1)
    else Ok (false, cnt)
  end.

(** What [take_action] mutates: the board and the two piece counters. *)
Abbreviation tally := (Board * Z * Z)%type.

(** Body of [for i in range(0, cnt)]. *)
Definition flip_one (row col : Z) (turn : Color) (dx dy : Z)
    (st : tally) (i : Z) : res tally :=
  let '(board, b_cnt, w_cnt) := st in
  board' ← setcell board (row + dx * (i + 1)) (col + dy * (i + 1)) (Some turn);
  if decide (turn = BLACK) then Ok (board', b_cnt + 1, w_cnt - 1)
  else Ok (board', b_cnt - 1, w_cnt + 1).

(** Body of [for direction in directions] in [take_action]. *)
Definition action_dir (fuel : nat) (row col : Z) (turn : Color)
    (st : tally) (d : Z * Z) : res tally :=
  let '(board, _, _) := st in
  let '(dx, dy) := d in
  '(valid, cnt) ← action_scan fuel board turn dx dy (row + dx) (col + dy) 0;
  if valid : bool then foldM (flip_one row col turn dx dy) st (seqZ 0 cnt)
  else Ok st.

(** The function returns the three counters; the board is mutated in place,
    so the model returns it too. *)
Definition take_action_fuel (fuel : nat) (row col : Z) (turn : Color)
    (board : Board) (b_cnt w_cnt t_cnt : Z) (move : Coordinate) :
    res (Board * (Z * Z * Z)) :=
  board1 ← setcell board (fst move) (snd move) (Some turn);
  let b1 := if decide (turn = BLACK) then b_cnt + 1 else b_cnt in
  let w1 := if decide (turn = BLACK) then w_cnt else w_cnt + 1 in
  let t1 := t_cnt + 1 in
  '(board2, b2, w2) ← foldM (action_dir fuel row col turn) (board1, b1, w1) directions;
  Ok (board2, (b2, w2, t1)).

Definition take_action (row col : Z) (turn : Color) (board : Board)
    (b_cnt w_cnt t_cnt : Z) (move : Coordinate) : res (Board * (Z * Z * Z)) :=
  take_action_fuel scan_fuel row col turn board b_cnt w_cnt t_cnt move.

(** ** Boards of the narrative *)

Notation "'__'" := (@None Color) (only parsing).
Notation "'BB'" := (Some BLACK) (only parsing).
Notation "'WW'" := (Some WHITE) (only parsing).

Definition opening_board : Board :=
  [ [__; __; __; __; __; __; __; __];
    [__; __; __; __; __; __; __; __];
    [__; __; __; __; __; __; __; __];
    [__; __; __; WW; BB; __; __; __];
    [__; __; __; BB; WW; __; __; __];
    [__; __; __; __; __; __; __; __];
    [__; __; __; __; __; __; __; __];
    [__; __; __; __; __; __; __; __] ].

Definition midgame_board : Board :=
  [ [__; __; __; __; __; __; __; __];
    [__; __; __; __; __; __; __; __];
    [__; __; __; WW; BB; WW; __; __];
    [__; __; WW; BB; BB; WW; BB; __];
    [__; WW; BB; WW; BB; WW; __; __];
    [__; BB; WW; WW; WW; WW; __; __];
    [__; __; __; __; __; __; __; __];
    [__; __; __; __; __; __; __; __] ].

(** ** parse_coordinate *)

Inductive CoordinateParseError : Type :=
  | InputLength      (* "Input must be length 2" *)
  | RowOutOfBounds   (* "Row out of bounds" *)
  | ColOutOfBounds.  (* "Col out of bounds" *)

(** The argument is the text after [str.lower().strip()], as the list of its
    code points; [49] is [ord("1")] and [97] is [ord("a")]. *)
Definition parse_coordinate (str : list Z) : CoordinateParseError + Coordinate :=
  match str with
  | [c0; c1] =>
    let row := c1 - 49 in
    if negb ((0 <=? row) && (row <? SIZE)) then inl RowOutOfBounds
    else
      let col := c0 - 97 in
      if negb ((0 <=? col) && (col <? SIZE)) then inl ColOutOfBounds
      else inr (row, col)
  | _ => inl InputLength
  end.

(** ** check_end_status and play_game *)

(** One constructor per [print] of [check_end_status] and [play_game]. *)
Inductive output : Type :=
  | OutBlank                                   (* print('') and print() *)
  | OutNoValidMove                             (* "no valid move, switch user" *)
  | OutScore (b_cnt w_cnt t_cnt : Z)           (* "Score --> black: .., white: .., total: .." *)
  | OutRule                                    (* "|-------------------|" *)
  | OutBoard (board : Board) (nexts : list Coordinate)  (* board_str(board, nexts) *)
  | OutPrompt (turn : Color)                   (* "Enter move for ..: " *)
  | OutInvalidMove (e : CoordinateParseError)  (* "Invalid move: .." *)
  | OutNotValid                                (* "############ not vaild move ################" *)
  | OutOneLose                                 (* "one lose" *)
  | OutFullBoard                               (* "full the board" *)
  | OutGameEnd.                                (* "*********** game_end ***********" *)

Definition check_end_status (turn : Color) (b_cnt w_cnt t_cnt : Z) : list output * bool :=
  if (b_cnt =? 0) || (w_cnt =? 0) then ([OutOneLose], true)
  else if t_cnt =? SIZE * SIZE then ([OutFullBoard], true)
  else ([], false).

(** The local variables of [play_game] that live across iterations. *)
Record state : Type := State {
  board : Board;
  turn : Color;
  b_cnt : Z;
  w_cnt : Z;
  t_cnt : Z
}.

(** What [next(input)] does: yield a line (given after [lower().strip()]),
    or raise one of the two exceptions the loop catches.  An exhausted
    iterator raises [StopIteration], which the loop does not catch. *)
Inductive read : Type :=
  | Line (str : list Z)
  | RaiseEOFError
  | RaiseKeyboardInterrupt.

(** How one iteration of [while True] ends. *)
Inductive control : Type :=
  | Next (s : state) (input : list read)   (* [continue], or the end of the body *)
  | GameEnd (s : state)                    (* [break] after [end_status] *)
  | InputEnd (s : state).                  (* [break] in an [except] clause *)

(** [[None] * SIZE for _ in range(SIZE)] and the four assignments that
    follow it. *)
Definition play_game_board : res Board :=
  let board := replicate (Z.to_nat SIZE) (replicate (Z.to_nat SIZE) None) in
  board ← setcell board 3 3 (Some WHITE);
  board ← setcell board 3 4 (Some BLACK);
  board ← setcell board 4 3 (Some BLACK);
  setcell board 4 4 (Some WHITE).

(** The locals when the loop is entered; [play_game_board] is
    [opening_board] (lemma [play_game_board_opening]). *)
Definition play_game_init : state := State opening_board BLACK 2 2 4.

Definition shown (s : state) (cands : list Coordinate) : list output :=
  [OutBlank; OutScore (b_cnt s) (w_cnt s) (t_cnt s); OutRule; OutBoard (board s) cands;
   OutRule; OutBlank; OutPrompt (turn s)].

(** One iteration of the [while True] loop. *)
Definition play_iter (s : state) (input : list read) : res (list output * control) :=
  next_step_candidates ← next_steps (turn s) (board s);
  match next_step_candidates with
  | [] =>
    Ok ([OutBlank; OutNoValidMove],
        Next (State (board s) (switch_user (turn s)) (b_cnt s) (w_cnt s) (t_cnt s)) input)
  | _ :: _ =>
    let out := shown s next_step_candidates in
    match input with
    | [] => Raise StopIteration
    | RaiseEOFError :: _ => Ok (out ++ [OutBlank], InputEnd s)
    | RaiseKeyboardInterrupt :: _ => Ok (out ++ [OutBlank], InputEnd s)
    | Line str :: input' =>
      match parse_coordinate str with
      | inl e => Ok (out ++ [OutInvalidMove e; OutBlank], Next s input')
      | inr move =>
        v ← is_valid_move (fst move) (snd move) (turn s) (board s);
        if v : bool then
          '(board', (b, w, t)) ← take_action (fst move) (snd move) (turn s) (board s)
                                   (b_cnt s) (w_cnt s) (t_cnt s) move;
          let '(msgs, end_status) := check_end_status (turn s) b w t in
          if end_status : bool then
            Ok (out ++ msgs ++ [OutGameEnd; OutScore b w t],
                GameEnd (State board' (turn s) b w t))
          else
            Ok (out ++ msgs, Next (State board' (switch_user (turn s)) b w t) input')
        else Ok (out ++ [OutNotValid], Next s input')
      end
    end
  end.

(** The loop, with one unit of fuel per iteration; the result is the printed
    output and the locals when the loop is left. *)
Fixpoint play_loop (n : nat) (s : state) (input : list read) : res (list output * state) :=
  match n with
  | O => OutOfFuel
  | S n' =>
    '(out, c) ← play_iter s input;
    match c with
    | Next s' input' => '(out', s'') ← play_loop n' s' input'; Ok (out ++ out', s'')
    | GameEnd s' => Ok (out, s')
    | InputEnd s' => Ok (out, s')
    end
  end.

(** [play_game] returns [None]; what it leaves behind is its output. *)
Definition play_game (n : nat) (input : list read) : res (list output * ()) :=
  board ← play_game_board;
  '(out, _) ← play_loop n (State board BLACK 2 2 4) input;
  Ok (out, ()).

(** The line a player types for the cell [(row, col)]. *)
Definition keyed (row col : Z) : read := Line [97 + col; 49 + row].

(** Black takes every white piece in nine moves:
    d3 c3 b3 d2 e1 d6 d7 e3 f4. *)
Definition wipeout_game : list read :=
  [keyed 2 3; keyed 2 2; keyed 2 1; keyed 1 3; keyed 0 4; keyed 5 3; keyed 6 3;
   keyed 2 4; keyed 3 5].

(** Eleven moves after which neither colour can move:
    d3 e3 f6 c4 b3 c2 e2 a4 a2 d2 d1. *)
Definition stuck_game : list read :=
  [keyed 2 3; keyed 2 4; keyed 5 5; keyed 3 2; keyed 2 1; keyed 1 2; keyed 1 4;
   keyed 3 0; keyed 1 0; keyed 1 3; keyed 0 3].

(** ** Notions used to state the properties *)

(** The boards the game works on: 8 rows of 8 cells. *)
Definition wf_board (b : Board) : Prop :=
  length b = Z.to_nat SIZE ∧ Forall (λ r, length r = Z.to_nat SIZE) b.

(** Total reading of a cell, for coordinates on the board. *)
Definition cell_at (b : Board) (x y : Z) : cell :=
  default None ((b !! Z.to_nat x) ≫= (λ r, r !! Z.to_nat y)).

(** The board after [board[x][y] = v], for coordinates on the board. *)
Definition put (b : Board) (x y : Z) (v : cell) : Board :=
  match b !! Z.to_nat x with
  | Some r => <[Z.to_nat x := <[Z.to_nat y := v]> r]> b
  | None => b
  end.

(** A run of [k >= 1] opponent cells from [(row, col)] in direction
    [(dx, dy)], closed by a cell of the mover. *)
Definition opponent_run (board : Board) (turn : Color) (row col dx dy k : Z) : Prop :=
  1 ≤ k ∧
  (∀ i, 1 ≤ i ≤ k →
     on_board (row + i * dx) (col + i * dy) = true ∧
     getcell board (row + i * dx) (col + i * dy) = Ok (Some (switch_user turn))) ∧
  on_board (row + (k + 1) * dx) (col + (k + 1) * dy) = true ∧
  getcell board (row + (k + 1) * dx) (col + (k + 1) * dy) = Ok (Some turn).

Definition bookended (board : Board) (turn : Color) (row col : Z) : Prop :=
  ∃ d k, d ∈ directions ∧ opponent_run board turn row col d.1 d.2 k.

(** In the scan from [(row, col)] in direction [(dx, dy)], the cells
    [1 .. k-1] of the line hold opponent pieces. *)
Definition scanned (board : Board) (turn : Color) (row col dx dy k : Z) : Prop :=
  ∀ i, 1 ≤ i < k →
    on_board (row + i * dx) (col + i * dy) = true ∧
    cell_at board (row + i * dx) (col + i * dy) = Some (switch_user turn).

(** The cells whose content differs between two boards, in row-major order. *)
Definition changed_cells (old new : Board) : list Coordinate :=
  filter (λ z, cell_at old z.1 z.2 ≠ cell_at new z.1 z.2) all_cells.

(** Recounting a board. *)

Fixpoint total (f : Coordinate → Z) (l : list Coordinate) : Z :=
  match l with
  | [] => 0
  | z :: l' => f z + total f l'
  end.

Definition ind (P : Prop) `{Decision P} : Z := if decide P then 1 else 0.

(** Number of cells of the grid that satisfy [P]. *)
Definition count_cells (P : cell → Prop) `{∀ c, Decision (P c)} (b : Board) : Z :=
  total (λ z, ind (P (cell_at b z.1 z.2))) all_cells.

Definition count_color (c : Color) (b : Board) : Z := count_cells (λ x, x = Some c) b.
Definition count_occupied (b : Board) : Z := count_cells (λ x, x ≠ None) b.
Definition count_empty (b : Board) : Z := count_cells (λ x, x = None) b.

(** Number of cells that held an opponent piece in [old] and hold a piece of
    [turn] in [new]. *)
Definition flipped_cells (turn : Color) (old new : Board) : Z :=
  total (λ z, ind (cell_at old z.1 z.2 = Some (switch_user turn) ∧
                   cell_at new z.1 z.2 = Some turn)) all_cells.

(** The counter of [turn] among the two piece counters. *)
Definition own_cnt (turn : Color) (b_cnt w_cnt : Z) : Z :=
  if decide (turn = BLACK) then b_cnt else w_cnt.

(** Every cell of [new] holds what it held in [old], or a piece of [turn]. *)
Definition only_writes (turn : Color) (old new : Board) : Prop :=
  ∀ x y, on_board x y = true →
    cell_at new x y = cell_at old x y ∨ cell_at new x y = Some turn.

(** [st'] is [st] after [n] opponent pieces were turned into pieces of
    [turn], on the board and in the two counters alike. *)
Record advanced (turn : Color) (n : Z) (st st' : tally) : Prop := {
  adv_wf : wf_board st'.1.1;
  adv_writes : only_writes turn st.1.1 st'.1.1;
  adv_own : count_color turn st'.1.1 = count_color turn st.1.1 + n;
  adv_opp : count_color (switch_user turn) st'.1.1
            = count_color (switch_user turn) st.1.1 - n;
  adv_own_cnt : own_cnt turn st'.1.2 st'.2 = own_cnt turn st.1.2 st.2 + n;
  adv_opp_cnt : own_cnt (switch_user turn) st'.1.2 st'.2
                = own_cnt (switch_user turn) st.1.2 st.2 - n
}.

(** The board and the piece counters of [take_action] after the placement,
    before any flip. *)
Definition placed (turn : Color) (row col : Z) (board : Board) (b_cnt w_cnt : Z) : tally :=
  (put board row col (Some turn),
   if decide (turn = BLACK) then b_cnt + 1 else b_cnt,
   if decide (turn = BLACK) then w_cnt else w_cnt + 1).

(** The locals with which an iteration ends. *)
Definition after (c : control) : state :=
  match c with
  | Next s _ => s
  | GameEnd s => s
  | InputEnd s => s
  end.

(** The states in which the loop starts an iteration, for some input. *)
Inductive reachable : state → Prop :=
  | reachable_init : reachable play_game_init
  | reachable_next s input out s' input' :
      reachable s → play_iter s input = Ok (out, Next s' input') → reachable s'.

(** Up to [n] iterations, without the output. *)
Fixpoint play_iters (n : nat) (s : state) (input : list read) : res control :=
  match n with
  | O => Ok (Next s input)
  | S n' =>
    '(_, c) ← play_iter s input;
    match c with
    | Next s' input' => play_iters n' s' input'
    | _ => Ok c
    end
  end.

(** The tracked counters are those of the board. *)
Definition counts_ok (s : state) : Prop :=
  wf_board (board s) ∧
  b_cnt s = count_color BLACK (board s) ∧
  w_cnt s = count_color WHITE (board s) ∧
  t_cnt s = count_occupied (board s).

(** The turn passes: same board, same counters, other player. *)
Definition passed (s : state) : state :=
  State (board s) (switch_user (turn s)) (b_cnt s) (w_cnt s) (t_cnt s).

(** The position after the eleven moves of [stuck_game]: one white piece
    is left at a4, no black piece can flank it, and it flanks nothing. *)
Definition stuck_state : state :=
  State
    [ [__; __; __; BB; __; __; __; __];
      [BB; __; BB; BB; BB; __; __; __];
      [__; BB; __; BB; BB; __; __; __];
      [WW; __; BB; BB; BB; __; __; __];
      [__; __; __; BB; BB; __; __; __];
      [__; __; __; __; __; BB; __; __];
      [__; __; __; __; __; __; __; __];
      [__; __; __; __; __; __; __; __] ]
    WHITE 14 1 15.

(** The position of [wipeout_game] before its last move. *)
Definition wipeout_eve : state :=
  State
    [ [__; __; __; __; BB; __; __; __];
      [__; __; __; BB; __; __; __; __];
      [__; BB; BB; BB; WW; __; __; __];
      [__; __; __; BB; WW; __; __; __];
      [__; __; __; BB; WW; __; __; __];
      [__; __; __; BB; __; __; __; __];
      [__; __; __; BB; __; __; __; __];
      [__; __; __; __; __; __; __; __] ]
    BLACK 9 3 12.

(** ** Further boards and notions *)

(** The board of the narrative on which White has no legal move. *)
Definition pass_board : Board :=
  [ [__; __; __; WW; WW; WW; __; WW];
    [__; __; WW; WW; WW; WW; __; WW];
    [__; WW; WW; WW; BB; WW; WW; WW];
    [__; __; WW; BB; BB; WW; BB; WW];
    [WW; WW; WW; WW; WW; WW; BB; WW];
    [__; WW; WW; WW; WW; WW; WW; WW];
    [__; __; WW; WW; WW; WW; WW; WW];
    [BB; BB; BB; BB; BB; BB; BB; WW] ].

(** Every item of the input is a line of text: reading never raises
    [EOFError] or [KeyboardInterrupt]. *)
Definition lines_only (input : list read) : Prop :=
  Forall (λ r, ∃ str, r = Line str) input.

(** The cell [(x, y)] lies in a run that a piece of [turn] placed at
    [(row, col)] bookends in one of the directions [ds]. *)
Definition on_run_of (ds : list (Z * Z)) (board : Board) (turn : Color)
    (row col x y : Z) : Prop :=
  ∃ d k i, d ∈ ds ∧ opponent_run board turn row col d.1 d.2 k ∧
           1 ≤ i ≤ k ∧ x = row + i * d.1 ∧ y = col + i * d.2.

Definition on_run (board : Board) (turn : Color) (row col x y : Z) : Prop :=
  on_run_of directions board turn row col x y.

(** While [take_action] works through the directions: the runs of the
    directions [ds] are turned, every other cell is as in [start]. *)
Definition turned (ds : list (Z * Z)) (start : Board) (turn : Color) (row col : Z)
    (b : Board) : Prop :=
  wf_board b ∧
  (∀ x y, on_board x y = true → on_run_of ds start turn row col x y →
     cell_at b x y = Some turn) ∧
  (∀ x y, on_board x y = true → ¬ on_run_of ds start turn row col x y →
     cell_at b x y = cell_at start x y).

(** ** board_str *)

(** A Python [str], as the list of its code points. *)
Abbreviation text := (list Z).

(** [sep.join(parts)] *)
Fixpoint join (sep : text) (parts : list text) : text :=
  match parts with
  | [] => []
  | [p] => p
  | p :: ps => p ++ sep ++ join sep ps
  end.

Fixpoint uint_text (d : Decimal.uint) : text :=
  match d with
  | Decimal.Nil => []
  | Decimal.D0 d => 48 :: uint_text d
  | Decimal.D1 d => 49 :: uint_text d
  | Decimal.D2 d => 50 :: uint_text d
  | Decimal.D3 d => 51 :: uint_text d
  | Decimal.D4 d => 52 :: uint_text d
  | Decimal.D5 d => 53 :: uint_text d
  | Decimal.D6 d => 54 :: uint_text d
  | Decimal.D7 d => 55 :: uint_text d
  | Decimal.D8 d => 56 :: uint_text d
  | Decimal.D9 d => 57 :: uint_text d
  end.

(** The text an f-string gives for an [int]: its decimal digits, after a
    minus sign when it is negative. *)
Definition int_text (n : Z) : text :=
  match Z.to_int n with
  | Decimal.Pos d => uint_text d
  | Decimal.Neg d => 45 :: uint_text d
  end.

(** [Color.value]: ["B"] and ["W"]. *)
Definition color_value (c : Color) : text :=
  match c with
  | BLACK => [66]
  | WHITE => [87]
  end.

Fixpoint mapM {A B : Type} (f : A → res B) (l : list A) : res (list B) :=
  match l with
  | [] => Ok []
  | a :: l' => b ← f a; bs ← mapM f l'; Ok (b :: bs)
  end.

(** What the inner loop appends to [temp] for the cell [(i, j)]: the value
    of the piece, ["#"] for an empty cell listed in [nexts], [" "] otherwise.
    A [Color] is truthy and [None] is not. *)
Definition board_str_cell (board : Board) (nexts : list Coordinate) (i j : Z) : res text :=
  c ← getcell board i j;
  match c with
  | Some p => Ok (color_value p)
  | None => if decide ((i, j) ∈ nexts) then Ok [35] else Ok [32]
  end.

(** Body of [for i in range(SIZE)]: the line ["| {i + 1} {' '.join(temp)} |\n"]. *)
Definition board_str_row (board : Board) (nexts : list Coordinate) (result : text)
    (i : Z) : res text :=
  temp ← mapM (board_str_cell board nexts i) (seqZ 0 SIZE);
  Ok (result ++ [124; 32] ++ int_text (i + 1) ++ [32] ++ join [32] temp ++ [32; 124; 10]).

(** [chr(ord('a') + i)] is the code point [97 + i]. *)
Definition board_str (board : Board) (nexts : list Coordinate) : res text :=
  let result :=
    [124; 32; 32; 32] ++ join [32] ((λ i, [97 + i]) <$> seqZ 0 SIZE) ++ [32; 124; 10] in
  foldM (board_str_row board nexts) result (seqZ 0 SIZE).

(** The character that stands for the cell [(i, j)] in the picture. *)
Definition mark_of (board : Board) (nexts : list Coordinate) (i j : Z) : Z :=
  match cell_at board i j with
  | Some BLACK => 66
  | Some WHITE => 87
  | None => if decide ((i, j) ∈ nexts) then 35 else 32
  end.

(** Where the picture shows the cell [(i, j)]: a line is 22 characters long
    with its newline, the first line is the header, and the cells of a line
    start at its fifth character, every other character. *)
Definition mark_pos (i j : Z) : nat := Z.to_nat (22 * (i + 1) + 4 + 2 * j).

(** Reading a cell back from its character. *)
Definition read_mark (m : Z) : cell :=
  if m =? 66 then Some BLACK else if m =? 87 then Some WHITE else None.

(** ** The same position with the colours exchanged *)






(** ** The first line of parse_coordinate, on ASCII text *)

(** [str.lower()] on a text of ASCII characters: the letters A to Z become
    a to z. *)
Definition py_lower (s : text) : text :=
  (λ c, if (65 <=? c) && (c <=? 90) then c + 32 else c) <$> s.

(** The ASCII characters [str.strip()] removes: tab, line feed, vertical
    tab, form feed, carriage return, the four separators 28 to 31, space. *)
Definition py_isspace (c : Z) : bool :=
  ((9 <=? c) && (c <=? 13)) || ((28 <=? c) && (c <=? 32)).

Fixpoint py_lstrip (s : text) : text :=
  match s with
  | [] => []
  | c :: s' => if py_isspace c then py_lstrip s' else s
  end.

(** [str.strip()] on a text of ASCII characters. *)
Definition py_strip (s : text) : text :=
  reverse (py_lstrip (reverse (py_lstrip s))).

(** [parse_coordinate] from its first line on: [str.lower().strip()], then
    the checks. *)
Definition parse_line (raw : text) : CoordinateParseError + Coordinate :=
  parse_coordinate (py_strip (py_lower raw)).

(** * Properties *)

Lemma bind_Ok {A B} (a : A) (k : A → res B) : (Ok a ≫= k) = k a.
Proof. done. Qed.

Section Indexing.

Lemma on_board_spec x y :
  on_board x y = true ↔ (0 ≤ x < SIZE ∧ 0 ≤ y < SIZE).
Proof. unfold on_board, SIZE. lia. Qed.

Lemma py_index_ok {A} (l : list A) i a :
  0 ≤ i → l !! Z.to_nat i = Some a → py_index l i = Ok a.
Proof.
  intros Hi Hl. pose proof (lookup_lt_Some _ _ _ Hl) as Hlt.
  unfold py_index, py_norm.
  destruct (i <? 0) eqn:E; [lia|].
  destruct ((0 <=? i) && (i <? Z.of_nat (length l))) eqn:E2; [|lia].
  by rewrite Hl.
Qed.

Lemma py_store_ok {A} (l : list A) i v :
  0 ≤ i < Z.of_nat (length l) → py_store l i v = Ok (<[Z.to_nat i := v]> l).
Proof.
  intros Hi. unfold py_store, py_norm.
  destruct (i <? 0) eqn:E; [lia|].
  by destruct ((0 <=? i) && (i <? Z.of_nat (length l))) eqn:E2; [|lia].
Qed.

Lemma wf_row b x :
  wf_board b → 0 ≤ x < SIZE → ∃ r, b !! Z.to_nat x = Some r ∧ length r = Z.to_nat SIZE.
Proof.
  intros [Hlen Hrows] Hx.
  destruct (lookup_lt_is_Some_2 b (Z.to_nat x)) as [r Hr]; [unfold SIZE in *; lia|].
  exists r. split; [done|]. by eapply Forall_lookup_1 in Hrows.
Qed.

Lemma getcell_at b x y :
  wf_board b → on_board x y = true → getcell b x y = Ok (cell_at b x y).
Proof.
  intros Hwf [Hx Hy]%on_board_spec.
  destruct (wf_row b x Hwf Hx) as (r & Hr & Hlen).
  destruct (lookup_lt_is_Some_2 r (Z.to_nat y)) as [c Hc]; [unfold SIZE in *; lia|].
  unfold getcell, cell_at. rewrite (py_index_ok b x r) by (lia || done). simpl.
  rewrite Hr. simpl. rewrite Hc. simpl. apply py_index_ok; [lia|done].
Qed.

Lemma setcell_put b x y v :
  wf_board b → on_board x y = true → setcell b x y v = Ok (put b x y v).
Proof.
  intros Hwf [Hx Hy]%on_board_spec.
  destruct (wf_row b x Hwf Hx) as (r & Hr & Hlen). destruct Hwf as [Hb _].
  unfold setcell, put. rewrite (py_index_ok b x r) by (lia || done). simpl.
  rewrite py_store_ok by (unfold SIZE in *; lia). simpl.
  rewrite py_store_ok by (unfold SIZE in *; lia). by rewrite Hr.
Qed.

Lemma put_wf b x y v : wf_board b → wf_board (put b x y v).
Proof.
  intros [Hlen Hrows]. unfold put.
  destruct (b !! Z.to_nat x) as [r|] eqn:Hr; [|done].
  split; [by rewrite length_insert|].
  apply Forall_insert; [done|]. rewrite length_insert.
  by eapply Forall_lookup_1 in Hrows.
Qed.

Lemma cell_at_put_eq b x y v :
  wf_board b → on_board x y = true → cell_at (put b x y v) x y = v.
Proof.
  intros Hwf [Hx Hy]%on_board_spec.
  destruct (wf_row b x Hwf Hx) as (r & Hr & Hlen). destruct Hwf as [Hb _].
  unfold cell_at, put. rewrite Hr.
  rewrite list_lookup_insert_eq by (unfold SIZE in *; lia). simpl.
  by rewrite list_lookup_insert_eq by (unfold SIZE in *; lia).
Qed.

Lemma cell_at_put_ne b x y v x' y' :
  0 ≤ x → 0 ≤ y → 0 ≤ x' → 0 ≤ y' → (x, y) ≠ (x', y') →
  cell_at (put b x y v) x' y' = cell_at b x' y'.
Proof.
  intros Hx Hy Hx' Hy' Hne. unfold cell_at, put.
  destruct (b !! Z.to_nat x) as [r|] eqn:Hr; [|done].
  destruct (decide (x = x')) as [->|Hxx].
  - destruct (decide (Z.to_nat x' < length b)%nat) as [Hlt|Hge].
    + rewrite list_lookup_insert_eq by done. rewrite Hr. simpl.
      apply (f_equal (default None)). apply list_lookup_insert_ne.
      intros Heq. apply Hne. f_equal. lia.
    + by rewrite list_insert_ge by lia.
  - rewrite list_lookup_insert_ne; [done|lia].
Qed.

End Indexing.

Section Scan.

Lemma switch_user_ne turn : switch_user turn ≠ turn.
Proof. by destruct turn. Qed.

Lemma not_turn c turn : c ≠ turn → c = switch_user turn.
Proof. by destruct c, turn. Qed.

Lemma directions_cases (P : Z → Z → Prop) :
  P (-1) (-1) → P (-1) 0 → P (-1) 1 → P 0 (-1) → P 0 1 → P 1 (-1) → P 1 0 → P 1 1 →
  ∀ dx dy, (dx, dy) ∈ directions → P dx dy.
Proof.
  intros ???????? dx dy Hd. unfold directions in Hd.
  repeat (apply elem_of_cons in Hd as [[= -> ->]|Hd]; [assumption|]).
  by apply elem_of_nil in Hd.
Qed.

(** The eighth step from a cell of the board is off the board. *)
Lemma off_board_far row col dx dy i :
  on_board row col = true → (dx, dy) ∈ directions → SIZE ≤ i →
  on_board (row + i * dx) (col + i * dy) = false.
Proof.
  intros [Hx Hy]%on_board_spec Hd Hi. revert dx dy Hd.
  apply directions_cases; apply not_true_is_false; rewrite on_board_spec;
    unfold SIZE in *; lia.
Qed.

Context (board : Board) (turn : Color) (row col dx dy : Z).
Context (Hwf : wf_board board).

Lemma run_cell i c :
  on_board (row + i * dx) (col + i * dy) = true →
  getcell board (row + i * dx) (col + i * dy) = Ok c →
  cell_at board (row + i * dx) (col + i * dy) = c.
Proof. intros Hon. rewrite getcell_at by done. congruence. Qed.

Lemma run_cases k k' :
  scanned board turn row col dx dy k → opponent_run board turn row col dx dy k' → 1 ≤ k →
  (k ≤ k' ∧ on_board (row + k * dx) (col + k * dy) = true ∧
     cell_at board (row + k * dx) (col + k * dy) = Some (switch_user turn)) ∨
  (k' = k - 1 ∧ 2 ≤ k ∧ on_board (row + k * dx) (col + k * dy) = true ∧
     cell_at board (row + k * dx) (col + k * dy) = Some turn).
Proof.
  intros Hs (Hk' & Hrun & Hon & Hend) Hk.
  apply run_cell in Hend; [|done].
  destruct (Z_lt_le_dec k' k) as [Hlt|Hle].
  - destruct (decide (k' + 1 = k)) as [<-|Hne].
    + right. replace (k' + 1 - 1) with k' by lia. repeat split; (done || lia).
    + destruct (Hs (k' + 1)) as [_ Hopp]; [lia|].
      rewrite Hend in Hopp. injection Hopp as Hopp.
      by destruct (switch_user_ne turn).
  - left. destruct (Hrun k) as [Hon' Hc]; [lia|].
    apply run_cell in Hc; done.
Qed.

Lemma scanned_step k :
  scanned board turn row col dx dy k → on_board (row + k * dx) (col + k * dy) = true →
  cell_at board (row + k * dx) (col + k * dy) = Some (switch_user turn) →
  scanned board turn row col dx dy (k + 1).
Proof.
  intros Hs Hon Hc i Hi. destruct (decide (i = k)) as [->|Hne]; [done|].
  apply Hs. lia.
Qed.

Lemma scanned_run k :
  scanned board turn row col dx dy k → 2 ≤ k → on_board (row + k * dx) (col + k * dy) = true →
  cell_at board (row + k * dx) (col + k * dy) = Some turn →
  opponent_run board turn row col dx dy (k - 1).
Proof.
  intros Hs Hk Hon Hc. split; [lia|]. split.
  - intros i Hi. destruct (Hs i) as [Hon' Hc']; [lia|].
    split; [done|]. by rewrite getcell_at, Hc'.
  - replace (k - 1 + 1) with k by lia. split; [done|]. by rewrite getcell_at, Hc.
Qed.

Context (Hrc : on_board row col = true) (Hd : (dx, dy) ∈ directions).

(** The scan of [take_action] from the [k]-th cell of the line: it leaves
    the loop, with [valid] set exactly when the line holds a run, and
    then [cnt] is the length of the run. *)
Lemma action_scan_spec fuel : ∀ k,
  1 ≤ k → 9 ≤ Z.of_nat fuel + k →
  scanned board turn row col dx dy k →
  ∃ v n,
    action_scan fuel board turn dx dy (row + k * dx) (col + k * dy) (k - 1) = Ok (v, n) ∧
    (v = true → opponent_run board turn row col dx dy n) ∧
    (∀ k', opponent_run board turn row col dx dy k' → v = true ∧ n = k').
Proof.
  induction fuel as [|fuel IH]; intros k Hk Hfuel Hs.
  - destruct (Hs 8) as [Hon _]; [lia|].
    rewrite off_board_far in Hon by (done || unfold SIZE; lia). done.
  - simpl. destruct (on_board (row + k * dx) (col + k * dy)) eqn:Hon.
    + rewrite getcell_at by done. simpl.
      assert (Hnext : ∃ v n,
        action_scan fuel board turn dx dy (row + k * dx + dx) (col + k * dy + dy)
          (k - 1 + 1) = Ok (v, n) ∧
        (v = true → opponent_run board turn row col dx dy n) ∧
        (∀ k', opponent_run board turn row col dx dy k' → v = true ∧ n = k')
        ∨ cell_at board (row + k * dx) (col + k * dy) ≠ Some (switch_user turn)).
      { destruct (decide (cell_at board (row + k * dx) (col + k * dy)
                          = Some (switch_user turn))) as [Hc|Hc].
        - destruct (IH (k + 1)) as (v & n & Hrec); [lia|lia|by apply scanned_step|].
          exists v, n. left.
          replace (row + k * dx + dx) with (row + (k + 1) * dx) by lia.
          replace (col + k * dy + dy) with (col + (k + 1) * dy) by lia.
          by replace (k - 1 + 1) with (k + 1 - 1) by lia.
        - exists false, 0. by right. }
      destruct (cell_at board (row + k * dx) (col + k * dy)) as [c|] eqn:Hc.
      * rewrite decide_False by done.
        destruct (decide (Some c = Some turn)) as [[= ->]|Hne].
        -- destruct (k - 1 =? 0) eqn:Hk1.
           ++ exists false, (k - 1). split; [done|]. split; [done|].
              intros k' Hrun. destruct (run_cases k k' Hs Hrun Hk) as [(_&_&E)|(_&?&_)];
                [|lia]. rewrite Hc in E. injection E as E.
              by destruct (switch_user_ne turn).
           ++ exists true, (k - 1). split; [done|]. split.
              ** intros _. apply scanned_run; (done || lia).
              ** intros k' Hrun.
                 destruct (run_cases k k' Hs Hrun Hk) as [(_&_&E)|(?&_)]; [|done].
                 rewrite Hc in E. injection E as E. by destruct (switch_user_ne turn).
        -- destruct Hnext as (v & n & [Hrec|Hbad]).
           ++ exists v, n. by destruct (k - 1 =? 0).
           ++ destruct Hbad. f_equal. apply not_turn. congruence.
      * rewrite decide_True by done. exists false, (k - 1).
        split; [done|]. split; [done|]. intros k' Hrun.
        destruct (run_cases k k' Hs Hrun Hk) as [(_&_&E)|(_&_&_&E)];
          rewrite Hc in E; done.
    + exists false, (k - 1). split; [done|]. split; [done|]. intros k' Hrun.
      destruct (run_cases k k' Hs Hrun Hk) as [(_&E&_)|(_&_&E&_)]; congruence.
Qed.

End Scan.

Section Legality.

(** The two scans are the same loop: [return True] in one is
    [valid = True; break] in the other. *)
Lemma valid_scan_action fuel board turn dx dy : ∀ x y cnt,
  valid_scan fuel board turn dx dy x y cnt =
  (p ← action_scan fuel board turn dx dy x y cnt; Ok p.1).
Proof.
  induction fuel as [|fuel IH]; intros x y cnt; [done|].
  simpl. destruct (on_board x y); [|done].
  destruct (getcell board x y) as [c| |]; [|done..]. simpl.
  destruct (decide (c = None)); [done|].
  destruct (cnt =? 0), (decide (c = Some turn)); (done || apply IH).
Qed.

Context (board : Board) (turn : Color) (row col : Z).
Context (Hwf : wf_board board) (Hrc : on_board row col = true).

Lemma first_scan fuel dx dy :
  (dx, dy) ∈ directions → (Z.to_nat SIZE ≤ fuel)%nat →
  ∃ v n,
    action_scan fuel board turn dx dy (row + dx) (col + dy) 0 = Ok (v, n) ∧
    (v = true → opponent_run board turn row col dx dy n) ∧
    (∀ k', opponent_run board turn row col dx dy k' → v = true ∧ n = k').
Proof.
  intros Hd Hfuel.
  destruct (action_scan_spec board turn row col dx dy Hwf Hrc Hd fuel 1)
    as (v & n & Hscan & Hrun); [lia|unfold SIZE in *; lia|intros i ?; lia|].
  exists v, n. split; [|done].
  by replace (row + 1 * dx) with (row + dx) in Hscan by lia;
     replace (col + 1 * dy) with (col + dy) in Hscan by lia.
Qed.

Lemma valid_dirs_spec fuel ds :
  ds ⊆ directions → (Z.to_nat SIZE ≤ fuel)%nat →
  ∃ v, valid_dirs fuel board turn row col ds = Ok v ∧
    (v = true ↔ ∃ d k, d ∈ ds ∧ opponent_run board turn row col d.1 d.2 k).
Proof.
  intros Hsub Hfuel. induction ds as [|[dx dy] ds IH].
  - exists false. split; [done|]. split; [done|].
    intros (d & k & Hd & _). by apply elem_of_nil in Hd.
  - simpl. rewrite valid_scan_action.
    destruct (first_scan fuel dx dy) as (v & n & -> & Hrun & Huniq);
      [apply Hsub; left|done|]. simpl.
    destruct v.
    + exists true. split; [done|]. split; [|done]. intros _.
      exists (dx, dy), n. split; [left|by apply Hrun].
    + destruct IH as (v & -> & Hv); [intros d ?; apply Hsub; by right|].
      exists v. split; [done|]. rewrite Hv. split.
      * intros (d & k & Hd & Hk). exists d, k. split; [by right|done].
      * intros (d & k & [->|Hd]%elem_of_cons & Hk); [|by exists d, k].
        by destruct (Huniq k Hk).
Qed.

Lemma is_valid_move_fuel_spec fuel :
  (Z.to_nat SIZE ≤ fuel)%nat →
  ∃ v, is_valid_move_fuel fuel row col turn board = Ok v ∧
    (v = true ↔ cell_at board row col = None ∧ bookended board turn row col).
Proof.
  intros Hfuel. unfold is_valid_move_fuel. rewrite getcell_at, bind_Ok by done.
  destruct (cell_at board row col) as [c|].
  - rewrite decide_True by done. exists false. split; [done|]. split; [done|].
    by intros [? _].
  - rewrite decide_False by (by intros []).
    destruct (valid_dirs_spec fuel directions) as (v & -> & Hv); [done..|].
    exists v. split; [done|]. rewrite Hv. unfold bookended.
    split; [by intros ?|by intros [_ ?]].
Qed.

End Legality.

(** C1. On a board of 8 rows of 8 cells and for a coordinate on it,
    [is_valid_move] returns [False] when the target cell is not empty, and
    otherwise returns [True] exactly when one of the 8 directions holds,
    from the first step on, a non-empty contiguous run of opponent cells that
    ends on the board at a cell of the mover. *)
Theorem is_valid_move_spec (board : Board) (turn : Color) (row col : Z) :
  wf_board board → on_board row col = true →
  ∃ v, is_valid_move row col turn board = Ok v ∧
    (getcell board row col ≠ Ok None → v = false) ∧
    (getcell board row col = Ok None → (v = true ↔ bookended board turn row col)).
Proof.
  intros Hwf Hrc.
  destruct (is_valid_move_fuel_spec board turn row col Hwf Hrc scan_fuel) as (v & Hv & Hiff);
    [done|].
  exists v. split; [done|]. rewrite getcell_at by done. split.
  - intros Hne. destruct v; [|done]. destruct Hiff as [[Hc _] _]; [done|].
    by rewrite Hc in Hne.
  - intros [= Hc]. rewrite Hiff. split; [by intros [_ ?]|by intros ?].
Qed.

Lemma play_game_board_opening : play_game_board = Ok opening_board.
Proof. reflexivity. Qed.

(** C4. [play_game] starts from the standard opening board, and on that
    board [next_steps] for Black returns the four cells (2,3), (3,2), (4,5),
    (5,4) and nothing else. *)
Theorem opening_next_steps :
  play_game_board = Ok opening_board ∧
  next_steps BLACK opening_board = Ok [(2, 3); (3, 2); (4, 5); (5, 4)].
Proof. split; [reflexivity|]. vm_compute. reflexivity. Qed.

(** C5. On the mid-game board of the narrative, Black's move at g6 (row 5,
    column 6) puts a black piece there and turns the white pieces at c6, d6,
    e6, f5 and f6 black; no other cell of the board changes. *)
Theorem midgame_g6_flips (b w t : Z) :
  ∃ board' counts,
    take_action 5 6 BLACK midgame_board b w t (5, 6) = Ok (board', counts) ∧
    changed_cells midgame_board board' = [(4, 5); (5, 2); (5, 3); (5, 4); (5, 5); (5, 6)] ∧
    cell_at midgame_board 5 6 = None ∧ cell_at board' 5 6 = Some BLACK ∧
    Forall (λ z, cell_at midgame_board z.1 z.2 = Some WHITE ∧
                 cell_at board' z.1 z.2 = Some BLACK)
           [(5, 2); (5, 3); (5, 4); (4, 5); (5, 5)].
Proof.
  eexists _, _. split; [vm_compute; reflexivity|].
  split; [by vm_compute|]. split; [done|]. split; [done|].
  repeat (constructor; [by split|]). constructor.
Qed.

Section Counting.

Lemma total_ext f g l : (∀ z, z ∈ l → f z = g z) → total f l = total g l.
Proof.
  induction l as [|a l IH]; intros H; [done|]. simpl.
  rewrite (H a) by left. rewrite IH; [done|]. intros z Hz. apply H. by right.
Qed.

Lemma total_update f g l a :
  NoDup l → a ∈ l → (∀ z, z ∈ l → z ≠ a → g z = f z) →
  total g l = total f l - f a + g a.
Proof.
  induction l as [|b l IH]; intros Hnd Ha Hfg; [by apply elem_of_nil in Ha|].
  apply NoDup_cons in Hnd as [Hb Hnd]. simpl.
  destruct (decide (b = a)) as [->|Hne].
  - rewrite (total_ext g f l); [lia|].
    intros z Hz. apply Hfg; [by right|]. by intros ->.
  - apply elem_of_cons in Ha as [->|Ha]; [done|].
    rewrite (Hfg b) by (done || left). rewrite IH; [lia|done..|].
    intros z Hz. apply Hfg. by right.
Qed.

Lemma all_cells_spec z : z ∈ all_cells ↔ on_board z.1 z.2 = true.
Proof.
  destruct z as [x y]. unfold all_cells. rewrite on_board_spec, list_elem_of_bind.
  split.
  - intros (i & (j & Hz & Hj%elem_of_seqZ)%list_elem_of_bind & Hi%elem_of_seqZ).
    apply list_elem_of_singleton in Hz as [= -> ->]. simpl. lia.
  - intros [Hx Hy]. simpl in Hx, Hy. exists x.
    split; [|apply elem_of_seqZ; lia]. apply list_elem_of_bind. exists y.
    split; [by apply list_elem_of_singleton|apply elem_of_seqZ; lia].
Qed.

Lemma all_cells_NoDup : NoDup all_cells.
Proof. apply (bool_decide_unpack _). by vm_compute. Qed.

Lemma all_cells_length : Z.of_nat (length all_cells) = SIZE * SIZE.
Proof. reflexivity. Qed.

Context (P : cell → Prop) `{∀ c, Decision (P c)}.

Lemma count_cells_put b x y v :
  wf_board b → on_board x y = true →
  count_cells P (put b x y v) = count_cells P b - ind (P (cell_at b x y)) + ind (P v).
Proof.
  intros Hwf Hxy. unfold count_cells.
  rewrite (total_update (λ z, ind (P (cell_at b z.1 z.2))) _ _ (x, y)).
  - simpl. by rewrite cell_at_put_eq.
  - apply all_cells_NoDup.
  - by apply all_cells_spec.
  - intros [x' y'] [Hx' Hy']%all_cells_spec%on_board_spec Hne. simpl in *.
    apply on_board_spec in Hxy as [Hx Hy].
    rewrite cell_at_put_ne; (done || lia).
Qed.

End Counting.

Lemma count_occupied_colors b :
  count_occupied b = count_color BLACK b + count_color WHITE b.
Proof.
  unfold count_occupied, count_color, count_cells.
  induction all_cells as [|z l IH]; [done|]. simpl. rewrite IH.
  destruct (cell_at b z.1 z.2) as [[]|]; unfold ind; simpl; repeat case_decide; (done || lia).
Qed.

Lemma count_empty_occupied b : count_empty b + count_occupied b = SIZE * SIZE.
Proof.
  rewrite <- all_cells_length. unfold count_occupied, count_empty, count_cells.
  induction all_cells as [|z l IH]; [done|]. cbn [total length].
  destruct (cell_at b z.1 z.2); unfold ind in *; repeat case_decide; (done || lia).
Qed.

Lemma flipped_cells_lost turn old new :
  only_writes turn old new →
  flipped_cells turn old new =
    count_color (switch_user turn) old - count_color (switch_user turn) new.
Proof.
  intros Hw. unfold flipped_cells, count_color, count_cells.
  assert (Hall : ∀ z, z ∈ all_cells → on_board z.1 z.2 = true) by (intros z; apply all_cells_spec).
  induction all_cells as [|z l IH]; [done|]. cbn [total].
  rewrite IH by (intros z' ?; apply Hall; by right).
  destruct (Hw z.1 z.2) as [->| ->]; [apply Hall; left|..];
    pose proof (switch_user_ne turn); unfold ind; repeat case_decide;
    try lia; exfalso; intuition congruence.
Qed.

(** ** The executor *)

Section Executor.

Context (turn : Color) (row col : Z).
Context (Hrc : on_board row col = true).

Lemma only_writes_put b x y :
  wf_board b → on_board x y = true → only_writes turn b (put b x y (Some turn)).
Proof.
  intros Hwf Hxy x' y' [Hx' Hy']%on_board_spec.
  destruct (decide ((x, y) = (x', y'))) as [[= <- <-]|Hne].
  - right. by apply cell_at_put_eq.
  - left. apply on_board_spec in Hxy as [Hx Hy].
    apply cell_at_put_ne; (done || lia).
Qed.

Lemma advanced_refl st : wf_board st.1.1 → advanced turn 0 st st.
Proof. intros Hwf. split; try (done || lia). intros x y _. by left. Qed.

Lemma advanced_trans n m st1 st2 st3 :
  advanced turn n st1 st2 → advanced turn m st2 st3 → advanced turn (n + m) st1 st3.
Proof.
  intros [? W1 ? ? ? ?] [? W2 ? ? ? ?]. split; try (done || lia).
  intros x y Hxy. destruct (W2 x y Hxy) as [->|?]; [|by right]. by apply W1.
Qed.

(** Turning one opponent piece. *)
Lemma flip_one_spec dx dy b b_cnt w_cnt i :
  wf_board b → on_board (row + dx * (i + 1)) (col + dy * (i + 1)) = true →
  cell_at b (row + dx * (i + 1)) (col + dy * (i + 1)) = Some (switch_user turn) →
  ∃ st', flip_one row col turn dx dy (b, b_cnt, w_cnt) i = Ok st' ∧
    st'.1.1 = put b (row + dx * (i + 1)) (col + dy * (i + 1)) (Some turn) ∧
    advanced turn 1 (b, b_cnt, w_cnt) st'.
Proof.
  intros Hwf Hon Hc. unfold flip_one. rewrite setcell_put, bind_Ok by done.
  pose proof (switch_user_ne turn) as Hne.
  assert (Hadv : ∀ b' w',
    own_cnt turn b' w' = own_cnt turn b_cnt w_cnt + 1 →
    own_cnt (switch_user turn) b' w' = own_cnt (switch_user turn) b_cnt w_cnt - 1 →
    advanced turn 1 (b, b_cnt, w_cnt)
      (put b (row + dx * (i + 1)) (col + dy * (i + 1)) (Some turn), b', w')).
  { intros b' w' Hown Hopp. split; simpl; [by apply put_wf|by apply only_writes_put|..|done|done].
    - unfold count_color. rewrite count_cells_put, Hc by done.
      unfold ind. rewrite decide_False, decide_True by congruence. lia.
    - unfold count_color. rewrite count_cells_put, Hc by done.
      unfold ind. rewrite decide_True, decide_False by congruence. lia. }
  destruct turn; simpl; eexists; (split; [done|]); (split; [done|]);
    apply Hadv; unfold own_cnt; simpl; lia.
Qed.

Context (dx dy : Z) (Hd : (dx, dy) ∈ directions).

Lemma line_injective i j :
  i ≠ j → (row + dx * i, col + dy * i) ≠ (row + dx * j, col + dy * j).
Proof.
  intros Hne.
  apply (directions_cases
           (λ dx dy, (row + dx * i, col + dy * i) ≠ (row + dx * j, col + dy * j)));
    [intros Heq; injection Heq; intros; lia..|done].
Qed.

(** The loop [for i in range(0, cnt)] over a stretch of opponent cells. *)
Lemma flip_run_spec (k : nat) : ∀ a st,
  0 ≤ a → wf_board st.1.1 →
  (∀ i, a ≤ i < a + Z.of_nat k →
     on_board (row + dx * (i + 1)) (col + dy * (i + 1)) = true ∧
     cell_at st.1.1 (row + dx * (i + 1)) (col + dy * (i + 1)) = Some (switch_user turn)) →
  ∃ st', foldM (flip_one row col turn dx dy) st (seqZ a (Z.of_nat k)) = Ok st' ∧
    advanced turn (Z.of_nat k) st st'.
Proof.
  induction k as [|k IH]; intros a [[b b_cnt] w_cnt] Ha Hwf Hcells.
  - exists (b, b_cnt, w_cnt). split; [done|]. by apply advanced_refl.
  - rewrite seqZ_cons by lia. cbn [foldM].
    destruct (Hcells a) as [Hon Hc]; [lia|].
    destruct (flip_one_spec dx dy b b_cnt w_cnt a Hwf Hon Hc) as (st1 & -> & Hb1 & Hadv1).
    rewrite bind_Ok. replace (Z.pred (Z.of_nat (S k))) with (Z.of_nat k) by lia.
    destruct (IH (Z.succ a) st1) as (st2 & -> & Hadv2); [lia|by destruct Hadv1|..].
    + intros i Hi. destruct (Hcells i) as [Hon' Hc']; [lia|]. split; [done|].
      apply on_board_spec in Hon as [? ?]. apply on_board_spec in Hon' as [? ?].
      rewrite Hb1, cell_at_put_ne; [done|lia..|apply line_injective; lia].
    + exists st2. split; [done|].
      replace (Z.of_nat (S k)) with (1 + Z.of_nat k) by lia.
      by eapply advanced_trans.
Qed.

(** One direction of [take_action]. *)
Lemma action_dir_spec fuel st :
  (Z.to_nat SIZE ≤ fuel)%nat → wf_board st.1.1 →
  ∃ st' n, action_dir fuel row col turn st (dx, dy) = Ok st' ∧ advanced turn n st st'.
Proof.
  intros Hfuel Hwf. destruct st as [[b b_cnt] w_cnt]. unfold action_dir.
  destruct (first_scan b turn row col Hwf Hrc fuel dx dy Hd Hfuel)
    as (v & n & -> & Hrun & _).
  rewrite bind_Ok. destruct v; [|exists (b, b_cnt, w_cnt), 0; split; [done|by apply advanced_refl]].
  destruct Hrun as (Hn & Hcells & _); [done|].
  destruct (flip_run_spec (Z.to_nat n) 0 (b, b_cnt, w_cnt)) as (st' & Hst' & Hadv);
    [done|done| |].
  - intros i Hi. destruct (Hcells (i + 1)) as [Hon Hc]; [lia|].
    replace (row + dx * (i + 1)) with (row + (i + 1) * dx) by lia.
    replace (col + dy * (i + 1)) with (col + (i + 1) * dy) by lia.
    split; [done|]. rewrite getcell_at in Hc by done.
    change ((b, b_cnt, w_cnt).1.1) with b. congruence.
  - rewrite Z2Nat.id in Hst', Hadv by lia. by exists st', n.
Qed.

End Executor.

Section TakeAction.

Context (turn : Color) (row col : Z) (board : Board).
Context (Hwf : wf_board board) (Hrc : on_board row col = true).

Lemma action_dirs_spec fuel ds :
  (Z.to_nat SIZE ≤ fuel)%nat → ds ⊆ directions → ∀ st, wf_board st.1.1 →
  ∃ st' n, foldM (action_dir fuel row col turn) st ds = Ok st' ∧ advanced turn n st st'.
Proof.
  intros Hfuel. induction ds as [|[dx dy] ds IH]; intros Hsub st Hst.
  - exists st, 0. split; [done|]. by apply advanced_refl.
  - cbn [foldM].
    destruct (action_dir_spec turn row col Hrc dx dy) with (fuel := fuel) (st := st)
      as (st1 & n & -> & Hadv1); [apply Hsub; left|done..|].
    rewrite bind_Ok.
    destruct (IH) with (st := st1) as (st2 & m & -> & Hadv2);
      [intros d ?; apply Hsub; by right|by destruct Hadv1|].
    exists st2, (n + m). split; [done|]. by eapply advanced_trans.
Qed.

Lemma take_action_fuel_spec fuel b_cnt w_cnt t_cnt :
  (Z.to_nat SIZE ≤ fuel)%nat →
  ∃ board' b' w' n,
    take_action_fuel fuel row col turn board b_cnt w_cnt t_cnt (row, col)
      = Ok (board', (b', w', t_cnt + 1)) ∧
    advanced turn n (placed turn row col board b_cnt w_cnt) (board', b', w').
Proof.
  intros Hfuel. unfold take_action_fuel. cbn [fst snd].
  rewrite setcell_put, bind_Ok by done.
  destruct (action_dirs_spec fuel directions Hfuel) with (st := placed turn row col board b_cnt w_cnt)
    as ([[board' b'] w'] & n & Hfold & Hadv); [done|by apply put_wf|].
  unfold placed in Hfold. rewrite Hfold, bind_Ok. by exists board', b', w', n.
Qed.

Lemma take_action_legal b_cnt w_cnt t_cnt :
  cell_at board row col = None →
  ∃ board' b' w',
    take_action row col turn board b_cnt w_cnt t_cnt (row, col)
      = Ok (board', (b', w', t_cnt + 1)) ∧
    wf_board board' ∧
    own_cnt turn b' w' = own_cnt turn b_cnt w_cnt + 1 + flipped_cells turn board board' ∧
    own_cnt (switch_user turn) b' w'
      = own_cnt (switch_user turn) b_cnt w_cnt - flipped_cells turn board board' ∧
    count_color turn board' = count_color turn board + 1 + flipped_cells turn board board' ∧
    count_color (switch_user turn) board'
      = count_color (switch_user turn) board - flipped_cells turn board board'.
Proof.
  intros Hempty.
  destruct (take_action_fuel_spec scan_fuel b_cnt w_cnt t_cnt)
    as (board' & b' & w' & n & Hrun & [Hwf' Hw Hown Hopp Hoc Hpc]); [done|].
  exists board', b', w'. split; [done|]. split; [done|].
  unfold placed in *. cbn [fst snd] in *.
  pose proof (switch_user_ne turn) as Hne.
  assert (Hopp1 : count_color (switch_user turn) (put board row col (Some turn))
                  = count_color (switch_user turn) board).
  { unfold count_color. rewrite count_cells_put, Hempty by done.
    unfold ind. rewrite !decide_False by congruence. lia. }
  assert (Hown1 : count_color turn (put board row col (Some turn))
                  = count_color turn board + 1).
  { unfold count_color. rewrite count_cells_put, Hempty by done.
    unfold ind. rewrite decide_False, decide_True by congruence. lia. }
  assert (Hflip : flipped_cells turn board board' = n).
  { rewrite flipped_cells_lost; [lia|]. intros x y Hxy.
    destruct (Hw x y Hxy) as [->|?]; [|by right]. by apply only_writes_put. }
  rewrite Hflip. split_and!; try lia.
  - rewrite Hoc. destruct turn; unfold own_cnt; simpl; lia.
  - rewrite Hpc. destruct turn; unfold own_cnt; simpl; lia.
Qed.

End TakeAction.

(** C6. For a board of 8 rows of 8 cells and a coordinate that is legal for
    [turn], [take_action] adds to the mover's counter 1 plus the number of
    flipped cells, takes the number of flipped cells from the opponent's
    counter and adds 1 to the occupied counter; when the counters it is
    given are those of the board, the counters it returns are those obtained
    by recounting the resulting board. *)
Theorem take_action_counts (board : Board) (turn : Color) (row col b_cnt w_cnt t_cnt : Z) :
  wf_board board → on_board row col = true →
  is_valid_move row col turn board = Ok true →
  ∃ board' b' w' t',
    take_action row col turn board b_cnt w_cnt t_cnt (row, col) = Ok (board', (b', w', t')) ∧
    own_cnt turn b' w' = own_cnt turn b_cnt w_cnt + 1 + flipped_cells turn board board' ∧
    own_cnt (switch_user turn) b' w'
      = own_cnt (switch_user turn) b_cnt w_cnt - flipped_cells turn board board' ∧
    t' = t_cnt + 1 ∧
    (b_cnt = count_color BLACK board → w_cnt = count_color WHITE board →
     t_cnt = count_occupied board →
     b' = count_color BLACK board' ∧ w' = count_color WHITE board' ∧
     t' = count_occupied board').
Proof.
  intros Hwf Hrc Hvalid.
  destruct (is_valid_move_fuel_spec board turn row col Hwf Hrc scan_fuel) as (v & Hv & Hiff);
    [done|].
  unfold is_valid_move in Hvalid. rewrite Hvalid in Hv. injection Hv as <-.
  destruct Hiff as [[Hempty _] _]; [done|].
  destruct (take_action_legal turn row col board Hwf Hrc b_cnt w_cnt t_cnt Hempty)
    as (board' & b' & w' & Hrun & _ & Hown & Hopp & Hcown & Hcopp).
  exists board', b', w', (t_cnt + 1). split_and!; try done.
  intros -> -> ->. rewrite !count_occupied_colors.
  destruct turn; unfold own_cnt in *; simpl in *;
    change (switch_user BLACK) with WHITE in *;
    change (switch_user WHITE) with BLACK in *; lia.
Qed.

(** ** Termination of the line scans *)

Section Termination.

Lemma bind_Ok_inv {A B} (m : res A) (k : A → res B) r :
  (m ≫= k) = Ok r → ∃ a, m = Ok a ∧ k a = Ok r.
Proof. destruct m as [a| |]; [|done..]. intros Hk. by exists a. Qed.

(** A scan that ends within [fuel] loop tests ends the same way with more. *)
Lemma action_scan_mono board turn dx dy fuel : ∀ fuel' x y cnt r,
  (fuel ≤ fuel')%nat →
  action_scan fuel board turn dx dy x y cnt = Ok r →
  action_scan fuel' board turn dx dy x y cnt = Ok r.
Proof.
  induction fuel as [|fuel IH]; intros fuel' x y cnt r Hle; [done|].
  destruct fuel' as [|fuel']; [lia|]. simpl.
  destruct (on_board x y); [|done].
  destruct (getcell board x y) as [c| |]; [|done..]. simpl.
  destruct (decide (c = None)); [done|].
  destruct (cnt =? 0), (decide (c = Some turn)); (done || apply IH; lia).
Qed.

Lemma foldM_mono {A S} (f g : S → A → res S) l :
  (∀ s a r, f s a = Ok r → g s a = Ok r) →
  ∀ s r, foldM f s l = Ok r → foldM g s l = Ok r.
Proof.
  intros Hfg. induction l as [|a l IH]; intros s r; [done|]. cbn [foldM].
  intros (s1 & Hs1 & Hrest)%bind_Ok_inv.
  rewrite (Hfg _ _ _ Hs1), bind_Ok. by apply IH.
Qed.

Context (fuel fuel' : nat) (Hle : (fuel ≤ fuel')%nat).

Lemma valid_dirs_mono board turn row col ds r :
  valid_dirs fuel board turn row col ds = Ok r →
  valid_dirs fuel' board turn row col ds = Ok r.
Proof.
  induction ds as [|[dx dy] ds IH]; [done|]. cbn [valid_dirs].
  rewrite !valid_scan_action.
  intros (v & (p & Hp & [= <-])%bind_Ok_inv & Hrest)%bind_Ok_inv.
  rewrite (action_scan_mono _ _ _ _ fuel fuel' _ _ _ p Hle Hp), !bind_Ok.
  destruct p.1; [done|]. by apply IH.
Qed.

Lemma is_valid_move_fuel_mono row col turn board r :
  is_valid_move_fuel fuel row col turn board = Ok r →
  is_valid_move_fuel fuel' row col turn board = Ok r.
Proof.
  unfold is_valid_move_fuel. intros (c & -> & Hrest)%bind_Ok_inv. rewrite bind_Ok.
  destruct (decide (c ≠ None)); [done|]. by apply valid_dirs_mono.
Qed.

Lemma action_dir_mono row col turn st d r :
  action_dir fuel row col turn st d = Ok r →
  action_dir fuel' row col turn st d = Ok r.
Proof.
  destruct st as [[b b_cnt] w_cnt], d as [dx dy]. unfold action_dir.
  intros ([v n] & Hscan & Hrest)%bind_Ok_inv.
  by rewrite (action_scan_mono _ _ _ _ fuel fuel' _ _ _ _ Hle Hscan), bind_Ok.
Qed.

Lemma take_action_fuel_mono row col turn board b_cnt w_cnt t_cnt move r :
  take_action_fuel fuel row col turn board b_cnt w_cnt t_cnt move = Ok r →
  take_action_fuel fuel' row col turn board b_cnt w_cnt t_cnt move = Ok r.
Proof.
  unfold take_action_fuel. intros (b1 & -> & Hrest)%bind_Ok_inv. rewrite bind_Ok.
  apply bind_Ok_inv in Hrest as (st & Hfold & Hret).
  erewrite foldM_mono; [by rewrite bind_Ok| |exact Hfold].
  intros ???. apply action_dir_mono.
Qed.

End Termination.

(** C9. On a board of 8 rows of 8 cells and for a coordinate on it, the line
    scans of [is_valid_move] and of [take_action] end: every scan has left
    its loop after at most [SIZE] tests of the loop condition, so both
    functions return a value, and giving the scans more room changes
    nothing. *)
Theorem scans_terminate (board : Board) (turn : Color) (row col b_cnt w_cnt t_cnt : Z)
    (fuel : nat) :
  wf_board board → on_board row col = true → (Z.to_nat SIZE ≤ fuel)%nat →
  (∃ v, is_valid_move row col turn board = Ok v ∧
        is_valid_move_fuel fuel row col turn board = Ok v) ∧
  (∃ r, take_action row col turn board b_cnt w_cnt t_cnt (row, col) = Ok r ∧
        take_action_fuel fuel row col turn board b_cnt w_cnt t_cnt (row, col) = Ok r).
Proof.
  intros Hwf Hrc Hfuel. split.
  - destruct (is_valid_move_fuel_spec board turn row col Hwf Hrc scan_fuel) as (v & Hv & _);
      [done|].
    exists v. split; [done|]. by apply (is_valid_move_fuel_mono scan_fuel).
  - destruct (take_action_fuel_spec turn row col board Hwf Hrc scan_fuel b_cnt w_cnt t_cnt)
      as (board' & b' & w' & n & Hrun & _); [done|].
    eexists. split; [exact Hrun|]. by apply (take_action_fuel_mono scan_fuel).
Qed.

(** ** The turn loop *)

Section TurnLoop.

Lemma parse_coordinate_on_board str row col :
  parse_coordinate str = inr (row, col) → on_board row col = true.
Proof.
  destruct str as [|c0 [|c1 [|]]]; try done. unfold parse_coordinate.
  destruct ((0 <=? c1 - 49) && (c1 - 49 <? SIZE)) eqn:Hr; [|done].
  destruct ((0 <=? c0 - 97) && (c0 - 97 <? SIZE)) eqn:Hc; [|done].
  intros [= <- <-]. unfold on_board. by rewrite Hr, Hc.
Qed.

Lemma parse_keyed row col :
  on_board row col = true → parse_coordinate [97 + col; 49 + row] = inr (row, col).
Proof.
  intros [Hr Hc]%on_board_spec. unfold parse_coordinate.
  replace (49 + row - 49) with row by lia. replace (97 + col - 97) with col by lia.
  destruct ((0 <=? row) && (row <? SIZE)) eqn:Hr'; [|lia].
  by destruct ((0 <=? col) && (col <? SIZE)) eqn:Hc'; [|lia].
Qed.

Lemma play_iters_reachable n : ∀ s input s' input',
  reachable s → play_iters n s input = Ok (Next s' input') → reachable s'.
Proof.
  induction n as [|n IH]; intros s input s' input' Hs; [by intros [= <- <-]|].
  cbn [play_iters]. intros ([out c] & Hiter & Hrest)%bind_Ok_inv.
  destruct c as [s1 input1| |]; [|done..].
  eapply IH; [|exact Hrest]. by eapply reachable_next.
Qed.

(** What an iteration can do to the locals: pass, leave them alone, or
    apply a legal move. *)
Lemma play_iter_cases s input out c :
  play_iter s input = Ok (out, c) →
  (next_steps (turn s) (board s) = Ok [] ∧ c = Next (passed s) input) ∨
  (after c = s ∧ ∃ cands, next_steps (turn s) (board s) = Ok cands ∧ cands ≠ []) ∨
  (∃ row col board' b w t,
     on_board row col = true ∧
     is_valid_move row col (turn s) (board s) = Ok true ∧
     take_action row col (turn s) (board s) (b_cnt s) (w_cnt s) (t_cnt s) (row, col)
       = Ok (board', (b, w, t)) ∧
     (c = GameEnd (State board' (turn s) b w t) ∧ (check_end_status (turn s) b w t).2 = true
      ∨ (∃ input', c = Next (State board' (switch_user (turn s)) b w t) input') ∧
        (check_end_status (turn s) b w t).2 = false)).
Proof.
  unfold play_iter. intros (cands & Hcands & Hrest)%bind_Ok_inv.
  destruct cands as [|c0 cands]; [left; by injection Hrest as <- <-|].
  right. assert (Hsame : ∃ cs, Ok (c0 :: cands) = Ok cs ∧ cs ≠ []) by by eexists.
  rewrite Hcands.
  destruct input as [|[str| |] input]; [done| |left; by injection Hrest as <- <-..].
  destruct (parse_coordinate str) as [e|[row col]] eqn:Hparse;
    [left; by injection Hrest as <- <-|].
  apply parse_coordinate_on_board in Hparse. cbn [fst snd] in Hrest.
  apply bind_Ok_inv in Hrest as (v & Hv & Hrest).
  destruct v; [|left; by injection Hrest as <- <-].
  apply bind_Ok_inv in Hrest as ([board' [[b w] t]] & Htake & Hrest).
  right. exists row, col, board', b, w, t. split_and!; try done.
  destruct (check_end_status (turn s) b w t) as [msgs []]; injection Hrest as <- <-.
  - by left.
  - right. split; [by eexists|done].
Qed.

Lemma counts_ok_init : counts_ok play_game_init.
Proof. split; [|done]. split; [done|]. by repeat constructor. Qed.

Lemma counts_ok_iter s input out c :
  counts_ok s → play_iter s input = Ok (out, c) → counts_ok (after c).
Proof.
  intros (Hwf & Hb & Hw & Ht) Hiter.
  destruct (play_iter_cases s input out c Hiter)
    as [[_ ->]|[[-> _]|(row & col & board' & b & w & t & Hrc & Hv & Htake & Hc)]];
    [done..|].
  destruct (is_valid_move_fuel_spec (board s) (turn s) row col Hwf Hrc scan_fuel)
    as (v & Hv' & Hiff); [done|].
  unfold is_valid_move in Hv. rewrite Hv in Hv'. injection Hv' as <-.
  destruct Hiff as [[Hempty _] _]; [done|].
  destruct (take_action_legal (turn s) row col (board s) Hwf Hrc
              (b_cnt s) (w_cnt s) (t_cnt s) Hempty)
    as (board1 & b1 & w1 & Hrun & Hwf1 & Hown & Hopp & Hcown & Hcopp).
  rewrite Htake in Hrun. injection Hrun as <- <- <- ->.
  assert (Hok : wf_board board' ∧ b = count_color BLACK board' ∧
                w = count_color WHITE board' ∧ t_cnt s + 1 = count_occupied board').
  { split; [done|]. rewrite count_occupied_colors, Ht, count_occupied_colors.
    destruct (turn s); unfold own_cnt in *; simpl in *;
      change (switch_user BLACK) with WHITE in *;
      change (switch_user WHITE) with BLACK in *; lia. }
  by destruct Hc as [[-> _]|[[input' ->] _]].
Qed.

Lemma reachable_counts_ok s : reachable s → counts_ok s.
Proof.
  induction 1 as [|s input out s' input' _ IH Hiter]; [apply counts_ok_init|].
  apply (counts_ok_iter s input out _ IH Hiter).
Qed.

Lemma counts_ok_total s :
  counts_ok s → b_cnt s + w_cnt s + count_empty (board s) = SIZE * SIZE.
Proof.
  intros (_ & -> & -> & _). rewrite <- count_occupied_colors.
  pose proof (count_empty_occupied (board s)). lia.
Qed.

End TurnLoop.

(** C7. In every state the game reaches, and in the state every operation
    on it leaves behind (initialisation, queries, an applied move, a pass,
    the end of the game), the tracked counters are those of the board and
    black count + white count + empty count is 64. *)
Theorem count_invariant (s : state) :
  reachable s →
  (counts_ok s ∧ b_cnt s + w_cnt s + count_empty (board s) = SIZE * SIZE ∧
   b_cnt s + w_cnt s + (SIZE * SIZE - t_cnt s) = SIZE * SIZE) ∧
  ∀ input out c, play_iter s input = Ok (out, c) →
    counts_ok (after c) ∧
    b_cnt (after c) + w_cnt (after c) + count_empty (board (after c)) = SIZE * SIZE ∧
    b_cnt (after c) + w_cnt (after c) + (SIZE * SIZE - t_cnt (after c)) = SIZE * SIZE.
Proof.
  intros Hs%reachable_counts_ok.
  assert (Hall : ∀ s', counts_ok s' →
    counts_ok s' ∧ b_cnt s' + w_cnt s' + count_empty (board s') = SIZE * SIZE ∧
    b_cnt s' + w_cnt s' + (SIZE * SIZE - t_cnt s') = SIZE * SIZE).
  { intros s' Hs'. split; [done|]. split; [by apply counts_ok_total|].
    destruct Hs' as (_ & -> & -> & ->). rewrite count_occupied_colors. lia. }
  split; [by apply Hall|]. intros input out c Hiter.
  apply Hall. by eapply counts_ok_iter.
Qed.

(** ** Rejected moves and the end of the game *)

Lemma check_end_status_spec turn b w t :
  (check_end_status turn b w t).2 = true ↔ b = 0 ∨ w = 0 ∨ t = SIZE * SIZE.
Proof.
  unfold check_end_status.
  destruct ((b =? 0) || (w =? 0)) eqn:Hzero; [simpl; lia|].
  destruct (t =? SIZE * SIZE) eqn:Hfull; simpl; lia.
Qed.

Lemma wf_opening_board : wf_board opening_board.
Proof. split; [done|]. by repeat constructor. Qed.

Lemma wf_midgame_board : wf_board midgame_board.
Proof. split; [done|]. by repeat constructor. Qed.

(** C8. In a state that awaits a move of [turn s], a proposed coordinate
    that is on the board but illegal (the cell is occupied, or no direction
    holds a run to flip) is rejected with the "not valid move" message: the
    board, the counters and the turn are unchanged, and the same player is
    asked again. *)
Theorem illegal_move_rejected (s : state) (cands : list Coordinate) (str : list Z)
    (row col : Z) (input : list read) :
  wf_board (board s) →
  next_steps (turn s) (board s) = Ok cands → cands ≠ [] →
  parse_coordinate str = inr (row, col) →
  getcell (board s) row col ≠ Ok None ∨ ¬ bookended (board s) (turn s) row col →
  play_iter s (Line str :: input) = Ok (shown s cands ++ [OutNotValid], Next s input).
Proof.
  intros Hwf Hcands Hne Hparse Hillegal.
  pose proof (parse_coordinate_on_board _ _ _ Hparse) as Hrc.
  unfold play_iter. rewrite Hcands, bind_Ok, Hparse. cbn [fst snd].
  destruct cands as [|c0 cands]; [done|].
  destruct (is_valid_move_fuel_spec (board s) (turn s) row col Hwf Hrc scan_fuel)
    as (v & Hv & Hiff); [done|].
  unfold is_valid_move. rewrite Hv, bind_Ok.
  destruct v; [|done]. destruct Hiff as [[Hempty Hrun] _]; [done|].
  destruct Hillegal as [Hocc|Hnorun]; [|done].
  destruct Hocc. by rewrite getcell_at, Hempty.
Qed.

(** C10. When a legal move leaves one of the two piece counters at zero,
    the iteration ends the game at once, whatever the occupied counter is:
    [check_end_status] looks at the counters only. *)
Theorem wiped_out_ends_game (s : state) (cands : list Coordinate) (str : list Z)
    (row col : Z) (input : list read) (board' : Board) (b w t : Z) :
  next_steps (turn s) (board s) = Ok cands → cands ≠ [] →
  parse_coordinate str = inr (row, col) →
  is_valid_move row col (turn s) (board s) = Ok true →
  take_action row col (turn s) (board s) (b_cnt s) (w_cnt s) (t_cnt s) (row, col)
    = Ok (board', (b, w, t)) →
  b = 0 ∨ w = 0 →
  check_end_status (turn s) b w t = ([OutOneLose], true) ∧
  play_iter s (Line str :: input)
    = Ok (shown s cands ++ [OutOneLose; OutGameEnd; OutScore b w t],
          GameEnd (State board' (turn s) b w t)).
Proof.
  intros Hcands Hne Hparse Hvalid Htake Hzero.
  assert (Hend : check_end_status (turn s) b w t = ([OutOneLose], true)).
  { unfold check_end_status. by destruct ((b =? 0) || (w =? 0)) eqn:E; [|lia]. }
  split; [done|]. unfold play_iter. rewrite Hcands, bind_Ok, Hparse. cbn [fst snd].
  destruct cands as [|c0 cands]; [done|].
  by rewrite Hvalid, bind_Ok, Htake, bind_Ok, Hend.
Qed.

Lemma stuck_state_reached rest :
  play_iters 11 play_game_init (stuck_game ++ rest) = Ok (Next stuck_state rest).
Proof. vm_compute. reflexivity. Qed.

Lemma wipeout_eve_reached :
  play_iters 8 play_game_init wipeout_game = Ok (Next wipeout_eve [keyed 3 5]).
Proof. vm_compute. reflexivity. Qed.

(** When neither colour has a move, every iteration is a pass. *)
Lemma both_stuck_loop n : ∀ s input,
  next_steps BLACK (board s) = Ok [] → next_steps WHITE (board s) = Ok [] →
  play_loop n s input = OutOfFuel.
Proof.
  induction n as [|n IH]; intros s input Hb Hw; [done|]. cbn [play_loop].
  assert (Hpass : play_iter s input = Ok ([OutBlank; OutNoValidMove], Next (passed s) input)).
  { unfold play_iter, passed. by destruct (turn s); rewrite ?Hb, ?Hw. }
  rewrite Hpass, bind_Ok. rewrite (IH (passed s) input Hb Hw). reflexivity.
Qed.

Lemma play_loop_iters n : ∀ s input s' input' m,
  play_iters n s input = Ok (Next s' input') →
  play_loop m s' input' = OutOfFuel →
  play_loop (n + m) s input = OutOfFuel.
Proof.
  induction n as [|n IH]; intros s input s' input' m; [by intros [= <- <-]|].
  cbn [play_iters]. intros ([out c] & Hiter & Hrest)%bind_Ok_inv Hloop.
  change (S n + m)%nat with (S (n + m)). cbn [play_loop]. rewrite Hiter, bind_Ok.
  destruct c as [s1 input1| |]; [|done..].
  by rewrite (IH s1 input1 s' input' m Hrest Hloop).
Qed.

(** C2. The game [stuck_game] reaches a state in which neither colour has a
    legal move while both have pieces and the board is not full.  There the
    loop does not end the game: every iteration is a pass, and [play_game]
    hands the turn back and forth without ever leaving its loop, whatever
    input follows. *)
Theorem double_pass_never_ends :
  reachable stuck_state ∧
  next_steps BLACK (board stuck_state) = Ok [] ∧
  next_steps WHITE (board stuck_state) = Ok [] ∧
  0 < b_cnt stuck_state ∧ 0 < w_cnt stuck_state ∧ t_cnt stuck_state < SIZE * SIZE ∧
  (∀ input, play_iter stuck_state input
     = Ok ([OutBlank; OutNoValidMove], Next (passed stuck_state) input)) ∧
  (∀ n input, play_loop n stuck_state input = OutOfFuel) ∧
  (∀ n rest, play_loop n play_game_init (stuck_game ++ rest) = OutOfFuel).
Proof.
  assert (Hb : next_steps BLACK (board stuck_state) = Ok []) by (vm_compute; reflexivity).
  assert (Hw : next_steps WHITE (board stuck_state) = Ok []) by (vm_compute; reflexivity).
  assert (Hloop : ∀ n input, play_loop n stuck_state input = OutOfFuel)
    by (intros n input; by apply both_stuck_loop).
  split; [|split; [exact Hb|split; [exact Hw|]]].
  { eapply play_iters_reachable; [apply reachable_init|apply (stuck_state_reached [])]. }
  split; [reflexivity|]. split; [reflexivity|]. split; [reflexivity|].
  split; [|split; [exact Hloop|]].
  - intros input. unfold play_iter. change (turn stuck_state) with WHITE.
    rewrite Hw. reflexivity.
  - intros n rest. destruct (decide (n < 11)%nat) as [Hlt|Hge].
    + do 11 (destruct n as [|n]; [vm_compute; reflexivity|]). lia.
    + replace n with (11 + (n - 11))%nat by lia.
      eapply play_loop_iters; [apply stuck_state_reached|apply Hloop].
Qed.

(** A counter of the board lies between 0 and the number of cells. *)
Lemma count_cells_bounds (P : cell → Prop) `{∀ c, Decision (P c)} b :
  0 ≤ count_cells P b ≤ SIZE * SIZE.
Proof.
  rewrite <- all_cells_length. unfold count_cells.
  induction all_cells as [|z l IH]; [done|]. cbn [total length].
  unfold ind in *. case_decide; lia.
Qed.

(** The loop never starts an iteration on a finished position: both colours
    have pieces and the board is not full.  The move that takes a counter
    to zero or fills the board ends the game in its own iteration. *)
Lemma reachable_in_play s :
  reachable s → 0 < b_cnt s ∧ 0 < w_cnt s ∧ t_cnt s < SIZE * SIZE.
Proof.
  induction 1 as [|s input out s' input' Hs IH Hiter]; [done|].
  pose proof (counts_ok_iter s input out _ (reachable_counts_ok s Hs) Hiter)
    as (_ & Hb & Hw & Ht).
  destruct (play_iter_cases s input out _ Hiter)
    as [[_ [= -> ->]]|[[Hsame _]|(row & col & board' & b & w & t & _ & _ & _ & Hc)]];
    [done|by simpl in Hsame; subst s'|].
  destruct Hc as [[[=] _]|[[input1 [= -> _]] Hgo]]. simpl in *.
  assert (Hnot : ¬ (b = 0 ∨ w = 0 ∨ t = SIZE * SIZE)).
  { rewrite <- (check_end_status_spec (turn s)). by rewrite Hgo. }
  pose proof (count_cells_bounds (λ x, x = Some BLACK) board').
  pose proof (count_cells_bounds (λ x, x = Some WHITE) board').
  pose proof (count_cells_bounds (λ x, x ≠ None) board').
  unfold count_color, count_occupied in *. lia.
Qed.

(** What an iteration prints when it ends the game: the position shown
    before the move, the reason, the banner and the three counters. *)
Lemma play_iter_game_end s input out s' :
  play_iter s input = Ok (out, GameEnd s') →
  ∃ cands msg, out = shown s cands ++ [msg; OutGameEnd; OutScore (b_cnt s') (w_cnt s') (t_cnt s')].
Proof.
  unfold play_iter. intros (cands & Hcands & Hrest)%bind_Ok_inv.
  destruct cands as [|c0 cands]; [done|].
  destruct input as [|[str| |] input]; [done| |done..].
  destruct (parse_coordinate str) as [e|[row col]]; [done|]. cbn [fst snd] in Hrest.
  apply bind_Ok_inv in Hrest as (v & Hv & Hrest). destruct v; [|done].
  apply bind_Ok_inv in Hrest as ([board' [[b w] t]] & Htake & Hrest).
  unfold check_end_status in Hrest.
  destruct ((b =? 0) || (w =? 0)); [|destruct (t =? SIZE * SIZE); [|done]];
    injection Hrest as <- <-; by eexists _, _.
Qed.

(** C3. The game [wipeout_game] ends after Black's ninth move with 13 black
    pieces and no white piece.  What [play_game] prints at that point is the
    reason, the banner and the score line, and it returns [None]: nothing
    compares the two counters, and no winner or tie is reported. *)
Theorem game_end_reports_counts_only :
  ∃ out s,
    play_loop 9 play_game_init wipeout_game = Ok (out, s) ∧
    play_game 9 wipeout_game = Ok (out, ()) ∧
    b_cnt s = 13 ∧ w_cnt s = 0 ∧ t_cnt s = 13 ∧
    drop (length out - 3) out = [OutOneLose; OutGameEnd; OutScore 13 0 13].
Proof.
  eexists _, _. split; [vm_compute; reflexivity|].
  split; [vm_compute; reflexivity|]. vm_compute. repeat split; reflexivity.
Qed.

(** ** The theorems at concrete inputs *)

Lemma is_valid_move_spec_witness :
  ∃ v, is_valid_move 2 3 BLACK opening_board = Ok v ∧
    (getcell opening_board 2 3 ≠ Ok None → v = false) ∧
    (getcell opening_board 2 3 = Ok None → (v = true ↔ bookended opening_board BLACK 2 3)).
Proof.
  apply (is_valid_move_spec opening_board BLACK 2 3).
  - split; [reflexivity|repeat constructor].
  - reflexivity.
Defined.

Lemma take_action_counts_witness :
  ∃ board' b' w' t',
    take_action 5 6 BLACK midgame_board 7 11 18 (5, 6) = Ok (board', (b', w', t')) ∧
    own_cnt BLACK b' w' = own_cnt BLACK 7 11 + 1 + flipped_cells BLACK midgame_board board' ∧
    own_cnt (switch_user BLACK) b' w'
      = own_cnt (switch_user BLACK) 7 11 - flipped_cells BLACK midgame_board board' ∧
    t' = 18 + 1 ∧
    (7 = count_color BLACK midgame_board → 11 = count_color WHITE midgame_board →
     18 = count_occupied midgame_board →
     b' = count_color BLACK board' ∧ w' = count_color WHITE board' ∧
     t' = count_occupied board').
Proof.
  apply (take_action_counts midgame_board BLACK 5 6 7 11 18).
  - split; [reflexivity|repeat constructor].
  - reflexivity.
  - vm_compute. reflexivity.
Defined.

Lemma count_invariant_witness :
  (counts_ok play_game_init ∧
   b_cnt play_game_init + w_cnt play_game_init + count_empty (board play_game_init)
     = SIZE * SIZE ∧
   b_cnt play_game_init + w_cnt play_game_init + (SIZE * SIZE - t_cnt play_game_init)
     = SIZE * SIZE) ∧
  ∀ input out c, play_iter play_game_init input = Ok (out, c) →
    counts_ok (after c) ∧
    b_cnt (after c) + w_cnt (after c) + count_empty (board (after c)) = SIZE * SIZE ∧
    b_cnt (after c) + w_cnt (after c) + (SIZE * SIZE - t_cnt (after c)) = SIZE * SIZE.
Proof. apply (count_invariant play_game_init). apply reachable_init. Defined.

Lemma illegal_move_rejected_witness :
  play_iter play_game_init [Line [100; 52]]
  = Ok (shown play_game_init [(2, 3); (3, 2); (4, 5); (5, 4)] ++ [OutNotValid],
        Next play_game_init []).
Proof.
  apply (illegal_move_rejected play_game_init [(2, 3); (3, 2); (4, 5); (5, 4)]
           [100; 52] 3 3 []).
  - split; [reflexivity|repeat constructor].
  - vm_compute. reflexivity.
  - discriminate.
  - reflexivity.
  - left. vm_compute. discriminate.
Defined.

Lemma scans_terminate_witness :
  (∃ v, is_valid_move 2 3 BLACK opening_board = Ok v ∧
        is_valid_move_fuel 20 2 3 BLACK opening_board = Ok v) ∧
  (∃ r, take_action 2 3 BLACK opening_board 2 2 4 (2, 3) = Ok r ∧
        take_action_fuel 20 2 3 BLACK opening_board 2 2 4 (2, 3) = Ok r).
Proof.
  apply (scans_terminate opening_board BLACK 2 3 2 2 4 20).
  - split; [reflexivity|repeat constructor].
  - reflexivity.
  - vm_compute. lia.
Defined.

Lemma wiped_out_ends_game_witness :
  ∃ cands board',
    check_end_status (turn wipeout_eve) 13 0 13 = ([OutOneLose], true) ∧
    play_iter wipeout_eve [keyed 3 5]
      = Ok (shown wipeout_eve cands ++ [OutOneLose; OutGameEnd; OutScore 13 0 13],
            GameEnd (State board' (turn wipeout_eve) 13 0 13)).
Proof.
  eexists _, _.
  eapply (wiped_out_ends_game wipeout_eve _ [102; 52] 3 5 [] _ 13 0 13).
  - vm_compute. reflexivity.
  - discriminate.
  - reflexivity.
  - vm_compute. reflexivity.
  - vm_compute. reflexivity.
  - right. reflexivity.
Defined.

(** * Further properties of the code *)

(** ** parse_coordinate *)

(** X1. [parse_coordinate] returns a coordinate exactly on a text of two
    characters, a letter from a to h followed by a digit from 1 to 8; the
    coordinate is the one the two characters name, and it is on the board. *)
Theorem parse_coordinate_accepts (str : list Z) (row col : Z) :
  parse_coordinate str = inr (row, col) ↔
  str = [97 + col; 49 + row] ∧ 0 ≤ row < SIZE ∧ 0 ≤ col < SIZE.
Proof.
  split.
  - intros Hparse. pose proof (parse_coordinate_on_board _ _ _ Hparse) as Hrc.
    apply on_board_spec in Hrc. split; [|done].
    destruct str as [|c0 [|c1 [|]]]; try done. unfold parse_coordinate in Hparse.
    destruct (negb ((0 <=? c1 - 49) && (c1 - 49 <? SIZE))); [done|].
    destruct (negb ((0 <=? c0 - 97) && (c0 - 97 <? SIZE))); [done|].
    injection Hparse as <- <-. f_equal; [lia|f_equal; lia].
  - intros (-> & Hr & Hc). apply parse_keyed. by apply on_board_spec.
Qed.

(** X2. [parse_coordinate] fails in three ways, tried in this order: a text
    that is not two characters long is a length error; then a second
    character that is not a digit from 1 to 8 is a row error, whatever the
    first character is; then a first character that is not a letter from a
    to h is a column error. *)
Theorem parse_coordinate_rejects (str : list Z) (e : CoordinateParseError) :
  parse_coordinate str = inl e ↔
  (e = InputLength ∧ length str ≠ 2%nat) ∨
  (∃ c0 c1, str = [c0; c1] ∧
     ((e = RowOutOfBounds ∧ ¬ (49 ≤ c1 < 49 + SIZE)) ∨
      (e = ColOutOfBounds ∧ 49 ≤ c1 < 49 + SIZE ∧ ¬ (97 ≤ c0 < 97 + SIZE)))).
Proof.
  unfold parse_coordinate, SIZE.
  destruct str as [|c0 [|c1 [|c2 str]]].
  1,2,4: split; [intros [= <-]; left; by split|intros [[-> _]|(?&?&[=]&_)]; done].
  destruct ((0 <=? c1 - 49) && (c1 - 49 <? 8)) eqn:Hr; simpl.
  - destruct ((0 <=? c0 - 97) && (c0 - 97 <? 8)) eqn:Hc; simpl.
    + split; [done|]. intros [[_ Hlen]|(? & ? & [= <- <-] & [[_ ?]|(_ & _ & ?)])];
        [done|exfalso; lia..].
    + split.
      * intros [= <-]. right. exists c0, c1. split; [done|]. right. split; [done|lia].
      * intros [[_ Hlen]|(? & ? & [= <- <-] & [[_ ?]|(-> & _ & _)])];
          [done|exfalso; lia|done].
  - split.
    + intros [= <-]. right. exists c0, c1. split; [done|]. left. split; [done|lia].
    + intros [[_ Hlen]|(? & ? & [= <- <-] & [[-> _]|(_ & ? & _)])];
        [done|done|exfalso; lia].
Qed.

(** ** Coordinates out of range *)

Lemma py_index_out {A} (l : list A) i :
  ¬ (- Z.of_nat (length l) ≤ i < Z.of_nat (length l)) → py_index l i = Raise IndexError.
Proof.
  intros Hi. unfold py_index, py_norm.
  destruct (i <? 0) eqn:Hneg;
    by destruct ((0 <=? _) && (_ <? Z.of_nat (length l))) eqn:E; [lia|].
Qed.

Lemma py_index_in {A} (l : list A) i :
  - Z.of_nat (length l) ≤ i < Z.of_nat (length l) → ∃ a, py_index l i = Ok a ∧ a ∈ l.
Proof.
  intros Hi. unfold py_index. set (j := py_norm (Z.of_nat (length l)) i).
  assert (Hj : 0 ≤ j < Z.of_nat (length l)).
  { unfold j, py_norm. destruct (i <? 0) eqn:Hneg; lia. }
  destruct ((0 <=? j) && (j <? Z.of_nat (length l))) eqn:E; [|lia].
  destruct (lookup_lt_is_Some_2 l (Z.to_nat j)) as [a Ha]; [lia|].
  rewrite Ha. exists a. split; [done|]. by eapply list_elem_of_lookup_2.
Qed.

Lemma py_store_out {A} (l : list A) i v :
  ¬ (- Z.of_nat (length l) ≤ i < Z.of_nat (length l)) → py_store l i v = Raise IndexError.
Proof.
  intros Hi. unfold py_store, py_norm.
  destruct (i <? 0) eqn:Hneg;
    by destruct ((0 <=? _) && (_ <? Z.of_nat (length l))) eqn:E; [lia|].
Qed.

Lemma cell_out_of_range board x y v :
  wf_board board → ¬ (- SIZE ≤ x < SIZE ∧ - SIZE ≤ y < SIZE) →
  getcell board x y = Raise IndexError ∧ setcell board x y v = Raise IndexError.
Proof.
  intros [Hlen Hrows] Hout. unfold getcell, setcell.
  destruct (decide (- SIZE ≤ x < SIZE)) as [Hx|Hx].
  - destruct (py_index_in board x) as (r & -> & Hr); [unfold SIZE in *; lia|].
    rewrite !bind_Ok. rewrite Forall_forall in Hrows. apply Hrows in Hr.
    rewrite py_index_out, py_store_out by (unfold SIZE in *; lia). done.
  - by rewrite py_index_out by (unfold SIZE in *; lia).
Qed.

(** X3. On a board of 8 rows of 8 cells, a coordinate with a component
    outside [-SIZE, SIZE) makes both [is_valid_move] and [take_action] raise
    [IndexError] at their first access to the board: neither function checks
    the range itself. *)
Theorem out_of_range_raises (board : Board) (turn : Color) (row col b_cnt w_cnt t_cnt : Z) :
  wf_board board → ¬ (- SIZE ≤ row < SIZE ∧ - SIZE ≤ col < SIZE) →
  is_valid_move row col turn board = Raise IndexError ∧
  take_action row col turn board b_cnt w_cnt t_cnt (row, col) = Raise IndexError.
Proof.
  intros Hwf Hout.
  destruct (cell_out_of_range board row col (Some turn) Hwf Hout) as [Hget Hset].
  split.
  - unfold is_valid_move, is_valid_move_fuel. by rewrite Hget.
  - unfold take_action, take_action_fuel. cbn [fst snd]. by rewrite Hset.
Qed.

Lemma out_of_range_raises_witness :
  is_valid_move 8 0 BLACK opening_board = Raise IndexError ∧
  take_action 8 0 BLACK opening_board 2 2 4 (8, 0) = Raise IndexError.
Proof.
  apply (out_of_range_raises opening_board BLACK 8 0 2 2 4).
  - split; [reflexivity|repeat constructor].
  - unfold SIZE. lia.
Defined.

(** ** next_steps *)

Lemma next_steps_from_spec board turn fuel cs :
  wf_board board → (Z.to_nat SIZE ≤ fuel)%nat →
  (∀ z, z ∈ cs → on_board z.1 z.2 = true) →
  ∃ l, next_steps_from fuel turn board cs = Ok l ∧ sublist l cs ∧
    ∀ z, z ∈ l ↔ z ∈ cs ∧ is_valid_move_fuel fuel z.1 z.2 turn board = Ok true.
Proof.
  intros Hwf Hfuel. induction cs as [|[i j] cs IH]; intros Hcs.
  - exists []. split; [done|]. split; [done|]. intros z. split; [|by intros [? _]].
    by intros ?%elem_of_nil.
  - cbn [next_steps_from].
    destruct (is_valid_move_fuel_spec board turn i j Hwf (Hcs (i, j) ltac:(left)) fuel Hfuel)
      as (v & Hv & _).
    rewrite Hv, bind_Ok.
    destruct IH as (l & -> & Hsub & Hmem); [intros z Hz; apply Hcs; by right|].
    rewrite bind_Ok. destruct v.
    + exists ((i, j) :: l). split; [done|]. split; [by apply sublist_skip|].
      intros z. rewrite !elem_of_cons, Hmem. split.
      * intros [->|[? ?]]; [by split; [left|]|by split; [right|]].
      * intros [[->|?] ?]; [by left|by right].
    + exists l. split; [done|]. split; [by apply sublist_cons|].
      intros z. rewrite elem_of_cons, Hmem. split.
      * intros [? ?]. by split; [right|].
      * intros [[->|?] Hz]; [|done]. simpl in Hz. congruence.
Qed.

(** X4. On a board of 8 rows of 8 cells [next_steps] returns a list: it
    holds exactly the cells of the grid for which [is_valid_move] returns
    [True], each of them empty, once each and in row-major order. *)
Theorem next_steps_spec (board : Board) (turn : Color) :
  wf_board board →
  ∃ l, next_steps turn board = Ok l ∧
    (∀ r c, (r, c) ∈ l ↔ on_board r c = true ∧ is_valid_move r c turn board = Ok true) ∧
    (∀ r c, (r, c) ∈ l → getcell board r c = Ok None) ∧
    sublist l all_cells ∧ NoDup l.
Proof.
  intros Hwf.
  destruct (next_steps_from_spec board turn scan_fuel all_cells Hwf) as (l & Hl & Hsub & Hmem);
    [done|intros z; apply all_cells_spec|].
  exists l. split; [done|].
  assert (Hiff : ∀ r c, (r, c) ∈ l ↔
            on_board r c = true ∧ is_valid_move r c turn board = Ok true).
  { intros r c. rewrite Hmem, all_cells_spec. done. }
  split; [done|]. split; [|split; [done|]].
  - intros r c [Hrc Hv]%Hiff.
    destruct (is_valid_move_fuel_spec board turn r c Hwf Hrc scan_fuel) as (v & Hv' & Hv'');
      [done|].
    unfold is_valid_move in Hv. rewrite Hv in Hv'. injection Hv' as <-.
    destruct Hv'' as [[Hempty _] _]; [done|]. by rewrite getcell_at, Hempty.
  - eapply sublist_NoDup; [apply all_cells_NoDup|exact Hsub].
Qed.

Lemma next_steps_spec_witness :
  ∃ l, next_steps BLACK midgame_board = Ok l ∧
    (∀ r c, (r, c) ∈ l ↔
       on_board r c = true ∧ is_valid_move r c BLACK midgame_board = Ok true) ∧
    (∀ r c, (r, c) ∈ l → getcell midgame_board r c = Ok None) ∧
    sublist l all_cells ∧ NoDup l.
Proof.
  apply (next_steps_spec midgame_board BLACK).
  split; [reflexivity|repeat constructor].
Defined.

(** ** More on the turn loop *)

Lemma next_steps_none board turn :
  wf_board board →
  Forall (λ z, is_valid_move z.1 z.2 turn board = Ok false) all_cells →
  next_steps turn board = Ok [].
Proof.
  intros Hwf Hnone.
  destruct (next_steps_from_spec board turn scan_fuel all_cells Hwf) as (l & Hl & _ & Hmem);
    [done|intros z; apply all_cells_spec|].
  unfold next_steps, next_steps_fuel. rewrite Hl. f_equal.
  destruct l as [|z l]; [done|].
  destruct (Hmem z) as [[Hz Hv] _]; [left|].
  rewrite Forall_forall in Hnone. apply Hnone in Hz.
  unfold is_valid_move in Hz. congruence.
Qed.

Lemma next_steps_some board turn r c :
  wf_board board → on_board r c = true → is_valid_move r c turn board = Ok true →
  ∃ z l, next_steps turn board = Ok (z :: l).
Proof.
  intros Hwf Hrc Hv.
  destruct (next_steps_from_spec board turn scan_fuel all_cells Hwf) as (l & Hl & _ & Hmem);
    [done|intros z; apply all_cells_spec|].
  destruct l as [|z l]; [|by exists z, l].
  destruct (Hmem (r, c)) as [_ Hin].
  assert (Hnil : (r, c) ∈ @nil Coordinate).
  { apply Hin. split; [by apply all_cells_spec|done]. }
  by apply elem_of_nil in Hnil.
Qed.

(** X5. When [is_valid_move] returns [False] for every cell of the grid, the
    iteration is a pass: it reads no input, prints the pass message, keeps
    the board and the three counters and hands the turn to the other colour;
    a second pass in a row would hand it back. *)
Theorem no_legal_move_passes (s : state) (input : list read) :
  wf_board (board s) →
  Forall (λ z, is_valid_move z.1 z.2 (turn s) (board s) = Ok false) all_cells →
  play_iter s input = Ok ([OutBlank; OutNoValidMove], Next (passed s) input) ∧
  board (passed s) = board s ∧
  (b_cnt (passed s), w_cnt (passed s), t_cnt (passed s)) = (b_cnt s, w_cnt s, t_cnt s) ∧
  turn (passed s) ≠ turn s ∧ passed (passed s) = s.
Proof.
  intros Hwf Hnone. split_and!; try done.
  - unfold play_iter. by rewrite (next_steps_none _ _ Hwf Hnone).
  - apply switch_user_ne.
  - by destruct s as [b [] ? ? ?].
Qed.

Lemma no_legal_move_passes_witness :
  let s := State pass_board WHITE 12 39 51 in
  play_iter s [keyed 0 0] = Ok ([OutBlank; OutNoValidMove], Next (passed s) [keyed 0 0]) ∧
  board (passed s) = board s ∧
  (b_cnt (passed s), w_cnt (passed s), t_cnt (passed s)) = (b_cnt s, w_cnt s, t_cnt s) ∧
  turn (passed s) ≠ turn s ∧ passed (passed s) = s.
Proof.
  apply (no_legal_move_passes (State pass_board WHITE 12 39 51) [keyed 0 0]).
  - split; [reflexivity|repeat constructor].
  - repeat (constructor; [vm_compute; reflexivity|]). constructor.
Defined.

(** X6. When some cell of the grid is legal for the mover and the input is
    exhausted, [next(input)] raises [StopIteration]; no [except] clause of the
    loop catches it, so it leaves [play_game]. *)
Theorem exhausted_input_raises (s : state) (r c : Z) :
  wf_board (board s) → on_board r c = true →
  is_valid_move r c (turn s) (board s) = Ok true →
  play_iter s [] = Raise StopIteration ∧
  ∀ n, play_loop (S n) s [] = Raise StopIteration.
Proof.
  intros Hwf Hrc Hv.
  destruct (next_steps_some _ _ r c Hwf Hrc Hv) as (z & l & Hl).
  assert (Hiter : play_iter s [] = Raise StopIteration).
  { unfold play_iter. by rewrite Hl. }
  split; [done|]. intros n. cbn [play_loop]. by rewrite Hiter.
Qed.

Lemma exhausted_input_raises_witness :
  play_iter play_game_init [] = Raise StopIteration ∧
  ∀ n, play_loop (S n) play_game_init [] = Raise StopIteration.
Proof.
  apply (exhausted_input_raises play_game_init 2 3).
  - split; [reflexivity|repeat constructor].
  - reflexivity.
  - vm_compute. reflexivity.
Defined.

Lemma play_iter_t_cnt s input out c :
  counts_ok s → play_iter s input = Ok (out, c) →
  t_cnt s ≤ t_cnt (after c) ≤ t_cnt s + 1.
Proof.
  intros (Hwf & _) Hiter.
  destruct (play_iter_cases s input out c Hiter)
    as [[_ ->]|[[-> _]|(row & col & board' & b & w & t & Hrc & Hv & Htake & Hc)]];
    [simpl; lia|lia|].
  destruct (take_action_fuel_spec (turn s) row col (board s) Hwf Hrc scan_fuel
              (b_cnt s) (w_cnt s) (t_cnt s)) as (b1 & b2 & w2 & n & Hrun & _); [done|].
  unfold take_action in Htake. rewrite Htake in Hrun. injection Hrun as _ _ _ ->.
  destruct Hc as [[-> _]|[[input' ->] _]]; simpl; lia.
Qed.

(** X7. At the head of every iteration the game is still in play: both
    colours have pieces, between 4 and 63 cells are occupied, and the
    occupied counter is the sum of the two piece counters.  The move that
    empties a colour or fills the board ends the game in its own iteration. *)
Theorem loop_head_in_play (s : state) :
  reachable s →
  0 < b_cnt s ∧ 0 < w_cnt s ∧ 4 ≤ t_cnt s < SIZE * SIZE ∧ b_cnt s + w_cnt s = t_cnt s.
Proof.
  intros Hs. pose proof (reachable_in_play s Hs) as (Hb & Hw & Ht).
  pose proof (reachable_counts_ok s Hs) as (_ & Hcb & Hcw & Hct).
  split_and!; try done.
  - clear -Hs. induction Hs as [|s input out s' input' Hs IH Hiter]; [done|].
    pose proof (play_iter_t_cnt s input out _ (reachable_counts_ok s Hs) Hiter). simpl in *. lia.
  - rewrite Hcb, Hcw, Hct. by rewrite count_occupied_colors.
Qed.

Lemma loop_head_in_play_witness :
  0 < b_cnt stuck_state ∧ 0 < w_cnt stuck_state ∧ 4 ≤ t_cnt stuck_state < SIZE * SIZE ∧
  b_cnt stuck_state + w_cnt stuck_state = t_cnt stuck_state.
Proof.
  apply (loop_head_in_play stuck_state).
  eapply play_iters_reachable; [apply reachable_init|apply (stuck_state_reached [])].
Defined.

Lemma play_iter_input s input out c :
  play_iter s input = Ok (out, c) →
  match c with
  | Next _ input' => input' = input ∨ ∃ str, input = Line str :: input'
  | GameEnd s' => (check_end_status (turn s) (b_cnt s') (w_cnt s') (t_cnt s')).2 = true
  | InputEnd _ => ∃ rest, input = RaiseEOFError :: rest ∨ input = RaiseKeyboardInterrupt :: rest
  end.
Proof.
  unfold play_iter. intros (cands & Hcands & Hrest)%bind_Ok_inv.
  destruct cands as [|c0 cands]; [injection Hrest as <- <-; by left|].
  destruct input as [|[str| |] input]; [done| |injection Hrest as <- <-; by eexists; eauto..].
  destruct (parse_coordinate str) as [e|[row col]];
    [injection Hrest as <- <-; right; by eexists|].
  cbn [fst snd] in Hrest. apply bind_Ok_inv in Hrest as (v & Hv & Hrest).
  destruct v; [|injection Hrest as <- <-; right; by eexists].
  apply bind_Ok_inv in Hrest as ([board' [[b w] t]] & Htake & Hrest).
  destruct (check_end_status (turn s) b w t) as [msgs []] eqn:Hend;
    injection Hrest as <- <-; [simpl; by rewrite Hend|right; by eexists].
Qed.

(** X8. On an input made of text lines only, [play_game] comes back from
    its loop only at a finished game: a colour has no piece left or the
    board is full.  (Otherwise it raises [StopIteration] when the lines run
    out, or keeps passing.) *)
Theorem lines_only_return (n : nat) (s : state) (input : list read)
    (out : list output) (s' : state) :
  lines_only input →
  play_loop n s input = Ok (out, s') →
  b_cnt s' = 0 ∨ w_cnt s' = 0 ∨ t_cnt s' = SIZE * SIZE.
Proof.
  revert s input out. induction n as [|n IH]; intros s input out Hlines; [done|].
  cbn [play_loop]. intros ([out1 c] & Hiter & Hrest)%bind_Ok_inv.
  pose proof (play_iter_input s input out1 c Hiter) as Hc.
  destruct c as [s1 input1|s1|s1].
  - apply bind_Ok_inv in Hrest as ([out2 s2] & Hloop & [= _ <-]).
    eapply IH; [|exact Hloop].
    destruct Hc as [->|[str ->]]; [done|]. by apply Forall_cons in Hlines as [_ ?].
  - injection Hrest as _ <-. by apply check_end_status_spec in Hc.
  - destruct Hc as [rest [->| ->]]; by apply Forall_cons in Hlines as [[? [=]] _].
Qed.

Lemma lines_only_return_witness :
  ∃ out s', play_loop 9 play_game_init wipeout_game = Ok (out, s') ∧
    (b_cnt s' = 0 ∨ w_cnt s' = 0 ∨ t_cnt s' = SIZE * SIZE).
Proof.
  eexists _, _. split; [vm_compute; reflexivity|].
  eapply (lines_only_return 9 play_game_init wipeout_game).
  - repeat (constructor; [by eexists|]). constructor.
  - vm_compute. reflexivity.
Defined.

Lemma play_iter_total s input :
  wf_board (board s) →
  (∃ out c, play_iter s input = Ok (out, c)) ∨ play_iter s input = Raise StopIteration.
Proof.
  intros Hwf. unfold play_iter.
  destruct (next_steps_from_spec (board s) (turn s) scan_fuel all_cells Hwf)
    as (l & Hl & _); [done|intros z; apply all_cells_spec|].
  unfold next_steps, next_steps_fuel. rewrite Hl, bind_Ok.
  destruct l as [|z l]; [left; by eexists _, _|].
  destruct input as [|[str| |] input]; [by right|..|left; by eexists _, _|left; by eexists _, _].
  destruct (parse_coordinate str) as [e|[row col]] eqn:Hparse; [left; by eexists _, _|].
  apply parse_coordinate_on_board in Hparse. cbn [fst snd].
  destruct (is_valid_move_fuel_spec (board s) (turn s) row col Hwf Hparse scan_fuel)
    as (v & Hv & _); [done|].
  unfold is_valid_move. rewrite Hv, bind_Ok. destruct v; [|left; by eexists _, _].
  destruct (take_action_fuel_spec (turn s) row col (board s) Hwf Hparse scan_fuel
              (b_cnt s) (w_cnt s) (t_cnt s)) as (b1 & b2 & w2 & n & Hrun & _); [done|].
  unfold take_action. rewrite Hrun, bind_Ok.
  destruct (check_end_status (turn s) b2 w2 (t_cnt s + 1)) as [msgs []];
    left; by eexists _, _.
Qed.

(** X9. From a state whose board has 8 rows of 8 cells and whose counters
    are those of the board, the turn loop never raises [IndexError], whatever
    the input and however long it runs: the coordinates it passes to
    [is_valid_move] and [take_action] went through [parse_coordinate] or come
    from the two [range(SIZE)] loops. *)
Theorem play_loop_in_range (n : nat) (s : state) (input : list read) :
  counts_ok s → play_loop n s input ≠ Raise IndexError.
Proof.
  revert s input. induction n as [|n IH]; intros s input Hs; [done|].
  cbn [play_loop].
  destruct (play_iter_total s input (proj1 Hs)) as [(out & c & Hiter)| ->]; [|done].
  rewrite Hiter, bind_Ok. pose proof (counts_ok_iter s input out c Hs Hiter) as Hc.
  destruct c as [s1 input1|s1|s1]; [|done..].
  specialize (IH s1 input1 Hc).
  by destruct (play_loop n s1 input1) as [[out2 s2]|[]|].
Qed.

Lemma play_loop_in_range_witness :
  play_loop 30 play_game_init (stuck_game ++ [RaiseEOFError]) ≠ Raise IndexError.
Proof.
  apply (play_loop_in_range 30 play_game_init (stuck_game ++ [RaiseEOFError])).
  split; [split; [reflexivity|repeat constructor]|].
  split; [reflexivity|]. split; reflexivity.
Defined.

(** ** What take_action does to the board *)

Section Lines.

Context (row col : Z).

(** Two lines from the same cell share no cell but their origin. *)
Lemma ray_disjoint dx dy dx' dy' i j :
  (dx, dy) ∈ directions → (dx', dy') ∈ directions → (dx, dy) ≠ (dx', dy') →
  1 ≤ i → 1 ≤ j →
  (row + i * dx, col + i * dy) ≠ (row + j * dx', col + j * dy').
Proof.
  intros Hd Hd'. revert dx' dy' Hd'.
  apply (directions_cases (λ dx' dy', (dx, dy) ≠ (dx', dy') → 1 ≤ i → 1 ≤ j →
           (row + i * dx, col + i * dy) ≠ (row + j * dx', col + j * dy')));
    revert dx dy Hd;
    apply (directions_cases (λ dx dy, (dx, dy) ≠ (_, _) → 1 ≤ i → 1 ≤ j →
             (row + i * dx, col + i * dy) ≠ (row + j * _, col + j * _)));
    intros Hne Hi Hj Heq; try done; injection Heq; intros; lia.
Qed.

Lemma ray_not_origin dx dy i :
  (dx, dy) ∈ directions → 1 ≤ i → (row + i * dx, col + i * dy) ≠ (row, col).
Proof.
  intros Hd Hi. revert dx dy Hd.
  apply (directions_cases (λ dx dy, (row + i * dx, col + i * dy) ≠ (row, col)));
    intros Heq; injection Heq; intros; lia.
Qed.

End Lines.

Section Flips.

Context (turn : Color) (row col : Z).

Lemma run_agree b b' dx dy k :
  wf_board b → wf_board b' →
  (∀ i, 1 ≤ i → on_board (row + i * dx) (col + i * dy) = true →
     cell_at b (row + i * dx) (col + i * dy) = cell_at b' (row + i * dx) (col + i * dy)) →
  opponent_run b turn row col dx dy k → opponent_run b' turn row col dx dy k.
Proof.
  intros Hwf Hwf' Hsame (Hk & Hcells & Hon & Hend). split; [done|]. split.
  - intros i Hi. destruct (Hcells i Hi) as [Hon' Hc]. split; [done|].
    rewrite getcell_at in * by done. by rewrite <- Hsame by (done || lia).
  - split; [done|]. rewrite getcell_at in * by done. by rewrite <- Hsame by (done || lia).
Qed.

Lemma on_run_of_mono ds ds' b x y :
  (∀ d, d ∈ ds → d ∈ ds') →
  on_run_of ds b turn row col x y → on_run_of ds' b turn row col x y.
Proof. intros Hsub (d & k & i & Hd & Hrest). exists d, k, i. by split; [apply Hsub|]. Qed.

Lemma turned_mono ds ds' start b :
  (∀ d, d ∈ ds ↔ d ∈ ds') → turned ds start turn row col b → turned ds' start turn row col b.
Proof.
  intros Hiff (Hwf & Hon & Hoff). split; [done|]. split.
  - intros x y Hxy Hrun. apply Hon; [done|]. eapply on_run_of_mono; [|exact Hrun].
    intros d. by apply Hiff.
  - intros x y Hxy Hrun. apply Hoff; [done|]. intros Hrun'. apply Hrun.
    eapply on_run_of_mono; [|exact Hrun']. intros d. by apply Hiff.
Qed.

Context (dx dy : Z) (Hd : (dx, dy) ∈ directions).

(** The cells of the board after [for i in range(0, cnt)]. *)
Lemma flip_run_cells (k : nat) : ∀ a st,
  0 ≤ a → wf_board st.1.1 →
  (∀ i, a ≤ i < a + Z.of_nat k →
     on_board (row + dx * (i + 1)) (col + dy * (i + 1)) = true ∧
     cell_at st.1.1 (row + dx * (i + 1)) (col + dy * (i + 1)) = Some (switch_user turn)) →
  ∃ st', foldM (flip_one row col turn dx dy) st (seqZ a (Z.of_nat k)) = Ok st' ∧
    wf_board st'.1.1 ∧
    (∀ i, a ≤ i < a + Z.of_nat k →
       cell_at st'.1.1 (row + dx * (i + 1)) (col + dy * (i + 1)) = Some turn) ∧
    (∀ x y, 0 ≤ x → 0 ≤ y →
       (∀ i, a ≤ i < a + Z.of_nat k →
          (x, y) ≠ (row + dx * (i + 1), col + dy * (i + 1))) →
       cell_at st'.1.1 x y = cell_at st.1.1 x y).
Proof.
  induction k as [|k IH]; intros a [[b b_cnt] w_cnt] Ha Hwf Hcells.
  - exists (b, b_cnt, w_cnt). split; [done|]. split; [done|]. split; [intros i; lia|done].
  - rewrite seqZ_cons by lia. cbn [foldM].
    destruct (Hcells a) as [Hon Hc]; [lia|].
    destruct (flip_one_spec turn row col dx dy b b_cnt w_cnt a Hwf Hon Hc)
      as (st1 & -> & Hb1 & Hadv1).
    rewrite bind_Ok. replace (Z.pred (Z.of_nat (S k))) with (Z.of_nat k) by lia.
    pose proof Hon as [Hx0 Hy0]%on_board_spec.
    assert (Hkeep : ∀ i, a < i →
      on_board (row + dx * (i + 1)) (col + dy * (i + 1)) = true →
      cell_at st1.1.1 (row + dx * (i + 1)) (col + dy * (i + 1))
      = cell_at b (row + dx * (i + 1)) (col + dy * (i + 1))).
    { intros i Hi [? ?]%on_board_spec.
      rewrite Hb1, cell_at_put_ne; [done|lia..|apply line_injective; [done|lia]]. }
    destruct (IH (Z.succ a) st1) as (st2 & -> & Hwf2 & Hturned & Hother);
      [lia|by destruct Hadv1|..].
    { intros i Hi. destruct (Hcells i) as [Hon' Hc']; [lia|]. split; [done|].
      rewrite Hkeep by (done || lia). done. }
    exists st2. split; [done|]. split; [done|]. split.
    + intros i Hi. destruct (decide (i = a)) as [->|Hne]; [|apply Hturned; lia].
      rewrite Hother; [|lia..|].
      * rewrite Hb1. by apply cell_at_put_eq.
      * intros i Hi'. apply line_injective; [done|lia].
    + intros x y Hx Hy Hne. rewrite Hother; [|done..|intros i Hi; apply Hne; lia].
      rewrite Hb1. apply cell_at_put_ne; [lia..|]. intros Heq. by apply (Hne a); [lia|].
Qed.

Context (Hrc : on_board row col = true) (start : Board) (Hstart : wf_board start).
Context (done : list (Z * Z)) (Hdone : ∀ d, d ∈ done → d ∈ directions).
Context (Hfresh : (dx, dy) ∉ done).

(** The line of a direction still to do is as it was at the start. *)
Lemma turned_line_untouched b i :
  turned done start turn row col b → 1 ≤ i →
  on_board (row + i * dx) (col + i * dy) = true →
  cell_at b (row + i * dx) (col + i * dy) = cell_at start (row + i * dx) (col + i * dy).
Proof.
  intros (_ & _ & Hoff) Hi Hon. apply Hoff; [done|].
  intros ([dx0 dy0] & k & i0 & Hd0 & _ & Hi0 & Hx & Hy). simpl in Hx, Hy.
  apply (ray_disjoint row col dx dy dx0 dy0 i i0); [done|by apply Hdone| |lia..|congruence].
  intros [= -> ->]. done.
Qed.

(** One direction of [take_action]: its run, if it has one, is turned, and
    nothing else changes. *)
Lemma action_dir_turned fuel st :
  (Z.to_nat SIZE ≤ fuel)%nat → turned done start turn row col st.1.1 →
  ∃ st', action_dir fuel row col turn st (dx, dy) = Ok st' ∧
    turned ((dx, dy) :: done) start turn row col st'.1.1.
Proof.
  intros Hfuel Hturned. destruct st as [[b b_cnt] w_cnt]. cbn [fst] in Hturned.
  pose proof Hturned as (Hwf & Hon & Hoff).
  assert (Hto : ∀ k, opponent_run start turn row col dx dy k →
                     opponent_run b turn row col dx dy k).
  { intros k. apply run_agree; [done..|]. intros i Hi Hi'.
    symmetry. by apply turned_line_untouched. }
  assert (Hfrom : ∀ k, opponent_run b turn row col dx dy k →
                       opponent_run start turn row col dx dy k).
  { intros k. apply run_agree; [done..|]. intros i Hi Hi'.
    by apply turned_line_untouched. }
  unfold action_dir.
  destruct (first_scan b turn row col Hwf Hrc fuel dx dy Hd Hfuel)
    as (v & n & -> & Hrun & Huniq).
  rewrite bind_Ok. destruct v.
  - destruct Hrun as (Hn & Hcells & Hend); [done|].
    destruct (flip_run_cells (Z.to_nat n) 0 (b, b_cnt, w_cnt))
      as (st' & Hst' & Hwf' & Hflip & Hother); [done|done| |].
    { intros i Hi. destruct (Hcells (i + 1)) as [Hon' Hc]; [lia|].
      replace (row + dx * (i + 1)) with (row + (i + 1) * dx) by lia.
      replace (col + dy * (i + 1)) with (col + (i + 1) * dy) by lia.
      split; [done|]. rewrite getcell_at in Hc by done.
      change ((b, b_cnt, w_cnt).1.1) with b. congruence. }
    rewrite Z2Nat.id in Hst', Hflip, Hother by lia.
    change ((b, b_cnt, w_cnt).1.1) with b in Hother.
    exists st'. split; [done|]. split; [done|]. split.
    + intros x y Hxy ([dx0 dy0] & k & i & [[= -> ->]|Hd0]%elem_of_cons & Hk & Hi & -> & ->);
        simpl in *.
      * destruct (Huniq k (Hto k Hk)) as [_ ->].
        specialize (Hflip (i - 1) ltac:(lia)).
        replace (row + dx * (i - 1 + 1)) with (row + i * dx) in Hflip by lia.
        by replace (col + dy * (i - 1 + 1)) with (col + i * dy) in Hflip by lia.
      * pose proof Hxy as [? ?]%on_board_spec. rewrite Hother; [|lia..|].
        -- apply Hon; [done|]. by exists (dx0, dy0), k, i.
        -- intros i' Hi'.
           replace (row + dx * (i' + 1)) with (row + (i' + 1) * dx) by lia.
           replace (col + dy * (i' + 1)) with (col + (i' + 1) * dy) by lia.
           apply ray_disjoint; [by apply Hdone|done| |lia..].
           intros [= -> ->]. done.
    + intros x y Hxy Hnot. pose proof Hxy as [? ?]%on_board_spec. rewrite Hother; [|lia..|].
      * apply Hoff; [done|]. intros Hrun'. apply Hnot.
        eapply on_run_of_mono; [|exact Hrun']. intros d ?. by right.
      * intros i' Hi' [= -> ->]. apply Hnot.
        exists (dx, dy), n, (i' + 1). split; [left|]. split; [apply Hfrom; by split|].
        simpl. split; [lia|]. split; lia.
  - exists (b, b_cnt, w_cnt). split; [done|]. split; [done|]. split.
    + intros x y Hxy ([dx0 dy0] & k & i & [[= -> ->]|Hd0]%elem_of_cons & Hk & Hi & -> & ->);
        simpl in *.
      * by destruct (Huniq k (Hto k Hk)).
      * apply Hon; [done|]. by exists (dx0, dy0), k, i.
    + intros x y Hxy Hnot. apply Hoff; [done|]. intros Hrun'. apply Hnot.
      eapply on_run_of_mono; [|exact Hrun']. intros d ?. by right.
Qed.

End Flips.

Section BoardAfter.

Context (turn : Color) (row col : Z) (board : Board).
Context (Hwf : wf_board board) (Hrc : on_board row col = true).

Lemma action_dirs_turned fuel start :
  (Z.to_nat SIZE ≤ fuel)%nat → wf_board start →
  ∀ ds done st,
    NoDup ds → (∀ d, d ∈ ds → d ∈ directions) → (∀ d, d ∈ done → d ∈ directions) →
    (∀ d, d ∈ ds → d ∉ done) →
    turned done start turn row col st.1.1 →
    ∃ st', foldM (action_dir fuel row col turn) st ds = Ok st' ∧
      turned (ds ++ done) start turn row col st'.1.1.
Proof.
  intros Hfuel Hstart. induction ds as [|[dx dy] ds IH]; intros done st Hnd Hds Hdone Hfresh Ht.
  - by exists st.
  - apply NoDup_cons in Hnd as [Hnotin Hnd]. cbn [foldM].
    destruct (action_dir_turned turn row col dx dy (Hds _ ltac:(left)) Hrc start Hstart
                done Hdone (Hfresh _ ltac:(left)) fuel st Hfuel Ht) as (st1 & -> & Ht1).
    rewrite bind_Ok.
    destruct (IH ((dx, dy) :: done) st1) as (st2 & -> & Ht2); [done| | | |done|].
    + intros d ?. apply Hds. by right.
    + intros d [->|?]%elem_of_cons; [apply Hds; left|by apply Hdone].
    + intros d Hd [->|?]%elem_of_cons; [done|]. by apply (Hfresh d); [right|].
    + exists st2. split; [done|]. eapply turned_mono; [|exact Ht2].
      intros d. simpl. rewrite !elem_of_cons, !elem_of_app, !elem_of_cons. tauto.
Qed.

Lemma directions_NoDup : NoDup directions.
Proof. apply (bool_decide_unpack _). by vm_compute. Qed.

(** Placing the piece changes no line from the target cell. *)
Lemma placed_runs x y :
  on_run_of directions (put board row col (Some turn)) turn row col x y ↔
  on_run_of directions board turn row col x y.
Proof.
  assert (Hsame : ∀ dx dy i, (dx, dy) ∈ directions → 1 ≤ i →
            on_board (row + i * dx) (col + i * dy) = true →
            cell_at (put board row col (Some turn)) (row + i * dx) (col + i * dy)
            = cell_at board (row + i * dx) (col + i * dy)).
  { intros dx dy i Hd Hi [? ?]%on_board_spec. pose proof Hrc as [? ?]%on_board_spec.
    apply cell_at_put_ne; [lia..|]. intros Heq. by apply (ray_not_origin row col dx dy i). }
  split; intros ([dx dy] & k & i & Hd & Hk & Hrest); exists (dx, dy), k, i;
    (split; [done|]); (split; [|done]); simpl in *.
  - eapply run_agree; [by apply put_wf|done| |exact Hk].
    intros j Hj Hon. by apply Hsame.
  - eapply run_agree; [done|by apply put_wf| |exact Hk].
    intros j Hj Hon. symmetry. by apply Hsame.
Qed.

(** The board [take_action] leaves: the target cell holds the mover's piece,
    the cells of the runs are turned, every other cell is untouched. *)
Lemma take_action_fuel_board fuel b_cnt w_cnt t_cnt :
  (Z.to_nat SIZE ≤ fuel)%nat →
  ∃ board' cnts,
    take_action_fuel fuel row col turn board b_cnt w_cnt t_cnt (row, col) = Ok (board', cnts) ∧
    wf_board board' ∧
    cell_at board' row col = Some turn ∧
    (∀ x y, on_board x y = true → on_run board turn row col x y →
       cell_at board x y = Some (switch_user turn) ∧ cell_at board' x y = Some turn) ∧
    (∀ x y, on_board x y = true → (x, y) ≠ (row, col) → ¬ on_run board turn row col x y →
       cell_at board' x y = cell_at board x y).
Proof.
  intros Hfuel. unfold take_action_fuel. cbn [fst snd].
  rewrite setcell_put, bind_Ok by done.
  set (start := put board row col (Some turn)).
  assert (Hstart : wf_board start) by by apply put_wf.
  destruct (action_dirs_turned fuel start Hfuel Hstart directions []
              (start, if decide (turn = BLACK) then b_cnt + 1 else b_cnt,
                      if decide (turn = BLACK) then w_cnt else w_cnt + 1))
    as ([[board' b'] w'] & -> & Ht); [apply directions_NoDup|done| | | |].
  { by intros d ?%elem_of_nil. }
  { by intros d _ ?%elem_of_nil. }
  { split; [done|]. split; [|done]. intros x y _ (d & ? & ? & ?%elem_of_nil & _). done. }
  rewrite bind_Ok, app_nil_r in *. cbn [fst] in Ht. destruct Ht as (Hwf' & Hon & Hoff).
  assert (Hnot_origin : ¬ on_run_of directions start turn row col row col).
  { intros ([dx dy] & k & i & Hd & _ & Hi & Hx & Hy). simpl in *.
    apply (ray_not_origin row col dx dy i); [done|lia|congruence]. }
  exists board', (b', w', t_cnt + 1). split_and!; try done.
  - rewrite Hoff by done. by apply cell_at_put_eq.
  - intros x y Hxy Hrun. split; [|apply Hon; [done|by apply placed_runs]].
    destruct Hrun as ([dx dy] & k & i & Hd & (_ & Hcells & _) & Hi & -> & ->). simpl in *.
    destruct (Hcells i Hi) as [_ Hc]. rewrite getcell_at in Hc by done. congruence.
  - intros x y Hxy Hne Hrun. rewrite Hoff;
      [|done|intros Hr; apply Hrun; unfold on_run; apply placed_runs; exact Hr].
    pose proof Hxy as [? ?]%on_board_spec. pose proof Hrc as [? ?]%on_board_spec.
    apply cell_at_put_ne; [lia..|done].
Qed.

End BoardAfter.

Lemma total_ge_one f l :
  (∀ z, 0 ≤ f z) → (∃ z, z ∈ l ∧ 1 ≤ f z) ↔ 1 ≤ total f l.
Proof.
  intros Hpos. assert (Hnn : ∀ l', 0 ≤ total f l').
  { induction l' as [|a l' IH]; simpl; [done|]. specialize (Hpos a). lia. }
  induction l as [|a l IH]; simpl.
  - split; [intros (z & ?%elem_of_nil & _); done|lia].
  - split.
    + intros (z & [->|Hz]%elem_of_cons & Hfz).
      * specialize (Hnn l). lia.
      * specialize (Hpos a). assert (1 ≤ total f l) by (apply IH; by exists z). lia.
    + intros Hsum. destruct (Z_le_dec 1 (f a)) as [Ha|Ha].
      * exists a. split; [left|done].
      * specialize (Hpos a). destruct IH as [_ (z & Hz & Hfz)]; [lia|].
        exists z. split; [by right|done].
Qed.

Lemma take_action_writes turn row col board b_cnt w_cnt t_cnt board' cnts x y :
  wf_board board → on_board row col = true → on_board x y = true →
  take_action row col turn board b_cnt w_cnt t_cnt (row, col) = Ok (board', cnts) →
  wf_board board' ∧ (cell_at board' x y = cell_at board x y ∨ cell_at board' x y = Some turn).
Proof.
  intros Hwf Hrc Hxy Htake.
  destruct (take_action_fuel_spec turn row col board Hwf Hrc scan_fuel b_cnt w_cnt t_cnt)
    as (b1 & b2 & w2 & n & Hrun & [Hwf' Hw _ _ _ _]); [done|].
  unfold take_action in Htake. rewrite Htake in Hrun. injection Hrun as <- _.
  split; [done|]. unfold placed in Hw. cbn [fst] in Hw.
  destruct (Hw x y Hxy) as [->|?]; [|by right].
  destruct (only_writes_put turn board row col Hwf Hrc x y Hxy) as [?|?];
    [by left|by right].
Qed.

(** X10. The board [take_action] leaves, for any coordinate on the board: the
    target cell holds the mover's piece; in every direction in which the
    board it was given holds a run of opponent pieces closed by a piece of
    the mover, the whole run is turned; and every other cell is untouched.
    The runs are those of the board before the move: a piece turned in one
    direction never starts or closes a run in another. *)
Theorem take_action_board (board : Board) (turn : Color) (row col b_cnt w_cnt t_cnt : Z) :
  wf_board board → on_board row col = true →
  ∃ board' cnts,
    take_action row col turn board b_cnt w_cnt t_cnt (row, col) = Ok (board', cnts) ∧
    wf_board board' ∧
    getcell board' row col = Ok (Some turn) ∧
    (∀ x y, on_board x y = true → on_run board turn row col x y →
       getcell board x y = Ok (Some (switch_user turn)) ∧
       getcell board' x y = Ok (Some turn)) ∧
    (∀ x y, on_board x y = true → (x, y) ≠ (row, col) → ¬ on_run board turn row col x y →
       getcell board' x y = getcell board x y).
Proof.
  intros Hwf Hrc.
  destruct (take_action_fuel_board turn row col board Hwf Hrc scan_fuel b_cnt w_cnt t_cnt)
    as (board' & cnts & Htake & Hwf' & Hplaced & Hon & Hoff); [done|].
  exists board', cnts. split_and!; try done.
  - by rewrite getcell_at, Hplaced.
  - intros x y Hxy Hrun. destruct (Hon x y Hxy Hrun) as [Hold Hnew].
    by rewrite !getcell_at, Hold, Hnew.
  - intros x y Hxy Hne Hrun. by rewrite !getcell_at, Hoff.
Qed.

Lemma take_action_board_witness :
  ∃ board' cnts,
    take_action 5 6 BLACK midgame_board 7 11 18 (5, 6) = Ok (board', cnts) ∧
    wf_board board' ∧
    getcell board' 5 6 = Ok (Some BLACK) ∧
    (∀ x y, on_board x y = true → on_run midgame_board BLACK 5 6 x y →
       getcell midgame_board x y = Ok (Some (switch_user BLACK)) ∧
       getcell board' x y = Ok (Some BLACK)) ∧
    (∀ x y, on_board x y = true → (x, y) ≠ (5, 6) → ¬ on_run midgame_board BLACK 5 6 x y →
       getcell board' x y = getcell midgame_board x y).
Proof.
  apply (take_action_board midgame_board BLACK 5 6 7 11 18).
  - split; [reflexivity|repeat constructor].
  - reflexivity.
Defined.

Lemma flips_iff_legal_aux board turn row col b_cnt w_cnt t_cnt board' cnts :
  wf_board board → on_board row col = true → getcell board row col = Ok None →
  take_action row col turn board b_cnt w_cnt t_cnt (row, col) = Ok (board', cnts) →
  is_valid_move row col turn board = Ok true ↔ 1 ≤ flipped_cells turn board board'.
Proof.
  intros Hwf Hrc Hempty Htake. rewrite getcell_at in Hempty by done. injection Hempty as Hempty.
  destruct (take_action_fuel_board turn row col board Hwf Hrc scan_fuel b_cnt w_cnt t_cnt)
    as (board1 & cnts1 & Htake1 & Hwf' & Hplaced & Hon & Hoff); [done|].
  unfold take_action in Htake. rewrite Htake in Htake1. injection Htake1 as <- <-.
  destruct (is_valid_move_fuel_spec board turn row col Hwf Hrc scan_fuel) as (v & Hv & Hiff);
    [done|].
  unfold is_valid_move, flipped_cells. rewrite Hv, <- total_ge_one.
  2: { intros z. unfold ind. case_decide; lia. }
  split.
  - intros [= ->]. destruct Hiff as [[_ ([dx dy] & k & Hd & Hk)] _]; [done|]. simpl in Hk.
    pose proof Hk as (Hk1 & Hcells & _). destruct (Hcells 1) as [Hon1 _]; [lia|].
    exists (row + 1 * dx, col + 1 * dy). split; [by apply all_cells_spec|]. simpl.
    destruct (Hon (row + 1 * dx) (col + 1 * dy) Hon1) as [Hold Hnew].
    { exists (dx, dy), k, 1. split; [done|]. split; [done|]. simpl. lia. }
    unfold ind. rewrite decide_True by done. lia.
  - intros ([x y] & Hz%all_cells_spec & Hflip). simpl in *. f_equal. apply Hiff.
    split; [done|]. unfold ind in Hflip. case_decide as Hch; [|lia].
    destruct Hch as [Hold Hnew].
    assert (Hne : (x, y) ≠ (row, col)) by (intros [= -> ->]; congruence).
    destruct (decide (cell_at board' x y = cell_at board x y)) as [Heq|Hchanged].
    { rewrite Hold, Hnew in Heq. injection Heq as Heq. by destruct (switch_user_ne turn). }
    assert (Hrun : ¬ ¬ on_run board turn row col x y).
    { intros Hnot. apply Hchanged. by apply Hoff. }
    assert (Hbook : ¬ ¬ bookended board turn row col).
    { intros Hnot. apply Hrun. intros (d & k & i & Hd & Hk & _). apply Hnot. by exists d, k. }
    destruct v; [apply Hiff; done|]. exfalso. apply Hbook. intros Hb.
    destruct Hiff as [_ Hback]. by discriminate Hback.
Qed.

(** X11. On an empty target cell the legality check and the executor agree:
    [is_valid_move] returns [True] exactly when [take_action] turns at least
    one opponent piece. *)
Theorem legal_iff_flips (board : Board) (turn : Color) (row col b_cnt w_cnt t_cnt : Z)
    (board' : Board) (cnts : Z * Z * Z) :
  wf_board board → on_board row col = true → getcell board row col = Ok None →
  take_action row col turn board b_cnt w_cnt t_cnt (row, col) = Ok (board', cnts) →
  is_valid_move row col turn board = Ok true ↔ 1 ≤ flipped_cells turn board board'.
Proof. apply flips_iff_legal_aux. Qed.

Lemma legal_iff_flips_witness :
  ∃ board' cnts,
    take_action 5 6 BLACK midgame_board 7 11 18 (5, 6) = Ok (board', cnts) ∧
    (is_valid_move 5 6 BLACK midgame_board = Ok true ↔
     1 ≤ flipped_cells BLACK midgame_board board').
Proof.
  eexists _, _. split; [vm_compute; reflexivity|].
  eapply (legal_iff_flips midgame_board BLACK 5 6 7 11 18).
  - split; [reflexivity|repeat constructor].
  - reflexivity.
  - reflexivity.
  - vm_compute. reflexivity.
Defined.

(** X12. After [take_action] on a cell of the board, that cell holds the
    mover's piece and [is_valid_move] returns [False] on it for both
    colours.  The move empties no cell and takes no piece from the mover:
    every cell holds what it held before or a piece of the mover. *)
Theorem placed_piece_stays (board : Board) (turn : Color) (row col b_cnt w_cnt t_cnt : Z)
    (board' : Board) (cnts : Z * Z * Z) :
  wf_board board → on_board row col = true →
  take_action row col turn board b_cnt w_cnt t_cnt (row, col) = Ok (board', cnts) →
  getcell board' row col = Ok (Some turn) ∧
  (∀ c, is_valid_move row col c board' = Ok false) ∧
  (∀ x y, on_board x y = true →
     getcell board' x y = getcell board x y ∨ getcell board' x y = Ok (Some turn)).
Proof.
  intros Hwf Hrc Htake.
  destruct (take_action_fuel_board turn row col board Hwf Hrc scan_fuel b_cnt w_cnt t_cnt)
    as (board1 & cnts1 & Htake1 & Hwf' & Hplaced & _); [done|].
  unfold take_action in Htake. rewrite Htake in Htake1. injection Htake1 as <- <-.
  split_and!.
  - by rewrite getcell_at, Hplaced.
  - intros c.
    destruct (is_valid_move_fuel_spec board' c row col Hwf' Hrc scan_fuel) as (v & Hv & Hiff);
      [done|].
    unfold is_valid_move. rewrite Hv. destruct v; [|done].
    destruct Hiff as [[Hempty _] _]; [done|]. congruence.
  - intros x y Hxy. rewrite !getcell_at by done.
    destruct (take_action_writes turn row col board b_cnt w_cnt t_cnt board' cnts x y
                Hwf Hrc Hxy Htake) as [_ [->| ->]]; [by left|by right].
Qed.

Lemma placed_piece_stays_witness :
  ∃ board' cnts,
    take_action 2 3 BLACK opening_board 2 2 4 (2, 3) = Ok (board', cnts) ∧
    getcell board' 2 3 = Ok (Some BLACK) ∧
    (∀ c, is_valid_move 2 3 c board' = Ok false) ∧
    (∀ x y, on_board x y = true →
       getcell board' x y = getcell opening_board x y ∨
       getcell board' x y = Ok (Some BLACK)).
Proof.
  eexists _, _. split; [vm_compute; reflexivity|].
  eapply (placed_piece_stays opening_board BLACK 2 3 2 2 4).
  - split; [reflexivity|repeat constructor].
  - reflexivity.
  - vm_compute. reflexivity.
Defined.

Lemma total_nonneg f l : (∀ z, 0 ≤ f z) → 0 ≤ total f l.
Proof.
  intros Hpos. induction l as [|a l IH]; simpl; [done|]. specialize (Hpos a). lia.
Qed.

(** X13. [take_action] does not check the move again.  Given an empty cell
    on which [is_valid_move] returns [False], it still places the piece: the
    target cell gets the mover's piece, no other cell changes, the mover's
    counter and the occupied counter grow by one and the opponent's counter
    stays. *)
Theorem unchecked_move_only_places (board : Board) (turn : Color)
    (row col b_cnt w_cnt t_cnt : Z) :
  wf_board board → on_board row col = true → getcell board row col = Ok None →
  is_valid_move row col turn board = Ok false →
  ∃ board' b' w',
    take_action row col turn board b_cnt w_cnt t_cnt (row, col)
      = Ok (board', (b', w', t_cnt + 1)) ∧
    getcell board' row col = Ok (Some turn) ∧
    (∀ x y, on_board x y = true → (x, y) ≠ (row, col) →
       getcell board' x y = getcell board x y) ∧
    own_cnt turn b' w' = own_cnt turn b_cnt w_cnt + 1 ∧
    own_cnt (switch_user turn) b' w' = own_cnt (switch_user turn) b_cnt w_cnt.
Proof.
  intros Hwf Hrc Hempty Hillegal.
  rewrite getcell_at in Hempty by done. injection Hempty as Hempty.
  destruct (is_valid_move_fuel_spec board turn row col Hwf Hrc scan_fuel) as (v & Hv & Hiff);
    [done|].
  unfold is_valid_move in Hillegal. rewrite Hillegal in Hv. injection Hv as <-.
  assert (Hnorun : ∀ x y, ¬ on_run board turn row col x y).
  { intros x y (d & k & i & Hd & Hk & _).
    destruct Hiff as [_ Hback]. discriminate Hback. split; [done|]. by exists d, k. }
  destruct (take_action_legal turn row col board Hwf Hrc b_cnt w_cnt t_cnt Hempty)
    as (board' & b' & w' & Htake & Hwf' & Hown & Hopp & _).
  destruct (take_action_fuel_board turn row col board Hwf Hrc scan_fuel b_cnt w_cnt t_cnt)
    as (board1 & cnts1 & Htake1 & _ & Hplaced & _ & Hoff); [done|].
  unfold take_action in Htake. rewrite Htake in Htake1. injection Htake1 as <- _.
  assert (Hflip : flipped_cells turn board board' = 0).
  { assert (Hnn : 0 ≤ flipped_cells turn board board').
    { apply total_nonneg. intros z. unfold ind. case_decide; lia. }
    destruct (Z_le_dec 1 (flipped_cells turn board board')) as [Hge|?]; [|lia].
    apply total_ge_one in Hge as ([x y] & Hz%all_cells_spec & Hf);
      [|intros z; unfold ind; case_decide; lia].
    simpl in *. unfold ind in Hf. case_decide as Hch; [|lia]. destruct Hch as [Hold Hnew].
    assert (Hne : (x, y) ≠ (row, col)) by (intros [= -> ->]; congruence).
    rewrite (Hoff x y Hz Hne (Hnorun x y)), Hold in Hnew. injection Hnew as Hnew.
    by destruct (switch_user_ne turn). }
  exists board', b', w'. split; [done|]. split_and!.
  - by rewrite getcell_at, Hplaced.
  - intros x y Hxy Hne. rewrite !getcell_at by done. f_equal. by apply Hoff.
  - lia.
  - lia.
Qed.

Lemma unchecked_move_only_places_witness :
  ∃ board' b' w',
    take_action 0 0 BLACK opening_board 2 2 4 (0, 0) = Ok (board', (b', w', 4 + 1)) ∧
    getcell board' 0 0 = Ok (Some BLACK) ∧
    (∀ x y, on_board x y = true → (x, y) ≠ (0, 0) →
       getcell board' x y = getcell opening_board x y) ∧
    own_cnt BLACK b' w' = own_cnt BLACK 2 2 + 1 ∧
    own_cnt (switch_user BLACK) b' w' = own_cnt (switch_user BLACK) 2 2.
Proof.
  apply (unchecked_move_only_places opening_board BLACK 0 0 2 2 4).
  - split; [reflexivity|repeat constructor].
  - reflexivity.
  - reflexivity.
  - vm_compute. reflexivity.
Defined.

(** ** board_str *)

Lemma mapM_ok {A B} (f : A → res B) (g : A → B) l :
  (∀ a, a ∈ l → f a = Ok (g a)) → mapM f l = Ok (g <$> l).
Proof.
  induction l as [|a l IH]; intros Hfg; [done|]. cbn [mapM].
  rewrite (Hfg a) by left. rewrite bind_Ok, IH, bind_Ok; [done|].
  intros b Hb. apply Hfg. by right.
Qed.

Lemma board_str_cell_mark board nexts i j :
  wf_board board → on_board i j = true →
  board_str_cell board nexts i j = Ok [mark_of board nexts i j].
Proof.
  intros Hwf Hij. unfold board_str_cell, mark_of. rewrite getcell_at, bind_Ok by done.
  destruct (cell_at board i j) as [[]|]; [done..|]. by case_decide.
Qed.

Lemma board_str_row_marks board nexts result i :
  wf_board board → 0 ≤ i < SIZE →
  board_str_row board nexts result i =
  Ok (result ++ [124; 32] ++ int_text (i + 1) ++
      [32; mark_of board nexts i 0; 32; mark_of board nexts i 1;
       32; mark_of board nexts i 2; 32; mark_of board nexts i 3;
       32; mark_of board nexts i 4; 32; mark_of board nexts i 5;
       32; mark_of board nexts i 6; 32; mark_of board nexts i 7; 32; 124; 10]).
Proof.
  intros Hwf Hi. unfold board_str_row.
  rewrite (mapM_ok _ (λ j, [mark_of board nexts i j])).
  - reflexivity.
  - intros j Hj%elem_of_seqZ. apply board_str_cell_mark; [done|].
    apply on_board_spec. lia.
Qed.

Lemma in_range_cases (P : Z → Prop) i :
  0 ≤ i < SIZE → P 0 → P 1 → P 2 → P 3 → P 4 → P 5 → P 6 → P 7 → P i.
Proof.
  intros Hi ????????. unfold SIZE in Hi.
  assert (Hin : i ∈ [0; 1; 2; 3; 4; 5; 6; 7]).
  { change [0; 1; 2; 3; 4; 5; 6; 7] with (seqZ 0 8). apply elem_of_seqZ. lia. }
  repeat (apply elem_of_cons in Hin as [->|Hin]; [assumption|]).
  by apply elem_of_nil in Hin.
Qed.

(** The text of the picture, line by line. *)
Lemma board_str_text board nexts :
  wf_board board →
  ∃ t, board_str board nexts = Ok t ∧ length t = 198%nat ∧
    take 22 t = [124; 32; 32; 32; 97; 32; 98; 32; 99; 32; 100; 32; 101; 32; 102; 32;
                 103; 32; 104; 32; 124; 10] ∧
    (∀ i, 0 ≤ i < SIZE →
       take 4 (drop (Z.to_nat (22 * (i + 1))) t) = [124; 32; 49 + i; 32] ∧
       take 3 (drop (Z.to_nat (22 * (i + 1) + 19)) t) = [32; 124; 10]) ∧
    (∀ i j, on_board i j = true → t !! mark_pos i j = Some (mark_of board nexts i j)).
Proof.
  intros Hwf. unfold board_str.
  change (seqZ 0 SIZE) with [0; 1; 2; 3; 4; 5; 6; 7]. cbn [foldM].
  do 8 (rewrite board_str_row_marks, bind_Ok by (done || unfold SIZE; lia)).
  set (m := mark_of board nexts). clearbody m.
  eexists. split; [reflexivity|]. split; [reflexivity|]. split; [reflexivity|]. split.
  - intros i Hi. revert i Hi.
    refine (λ i Hi, in_range_cases (λ i, _ ∧ _) i Hi _ _ _ _ _ _ _ _); by split.
  - intros i j [Hi Hj]%on_board_spec. revert j Hj.
    refine (λ j Hj, in_range_cases (λ j, _ = Some (m i j)) j Hj _ _ _ _ _ _ _ _);
      revert i Hi;
      refine (λ i Hi, in_range_cases (λ i, _ = Some (m i _)) i Hi _ _ _ _ _ _ _ _);
      reflexivity.
Qed.

(** X14. For a board of 8 rows of 8 cells [board_str] returns a picture of
    nine lines of 21 characters and a newline: the header with the letters
    a to h, then one line per row that starts with the row number and ends
    with a bar.  The cell [(i, j)] is drawn at the fifth character of its
    line and every other character from there: B or W for a piece, # for an
    empty cell listed in [nexts], a blank otherwise. *)
Theorem board_str_picture (board : Board) (nexts : list Coordinate) :
  wf_board board →
  ∃ t, board_str board nexts = Ok t ∧ length t = 198%nat ∧
    take 22 t = [124; 32; 32; 32; 97; 32; 98; 32; 99; 32; 100; 32; 101; 32; 102; 32;
                 103; 32; 104; 32; 124; 10] ∧
    (∀ i, 0 ≤ i < SIZE →
       take 4 (drop (Z.to_nat (22 * (i + 1))) t) = [124; 32; 49 + i; 32] ∧
       take 3 (drop (Z.to_nat (22 * (i + 1) + 19)) t) = [32; 124; 10]) ∧
    (∀ i j, on_board i j = true → t !! mark_pos i j = Some (mark_of board nexts i j)).
Proof. apply board_str_text. Qed.

Lemma board_str_picture_witness :
  ∃ t, board_str opening_board [(2, 3); (3, 2); (4, 5); (5, 4)] = Ok t ∧
    length t = 198%nat ∧
    take 22 t = [124; 32; 32; 32; 97; 32; 98; 32; 99; 32; 100; 32; 101; 32; 102; 32;
                 103; 32; 104; 32; 124; 10] ∧
    (∀ i, 0 ≤ i < SIZE →
       take 4 (drop (Z.to_nat (22 * (i + 1))) t) = [124; 32; 49 + i; 32] ∧
       take 3 (drop (Z.to_nat (22 * (i + 1) + 19)) t) = [32; 124; 10]) ∧
    (∀ i j, on_board i j = true →
       t !! mark_pos i j = Some (mark_of opening_board [(2, 3); (3, 2); (4, 5); (5, 4)] i j)).
Proof.
  apply (board_str_picture opening_board [(2, 3); (3, 2); (4, 5); (5, 4)]).
  split; [reflexivity|repeat constructor].
Defined.

(** X15. The picture can be read back: the character drawn for a cell gives
    the content of the cell (B black, W white, anything else empty),
    whatever [nexts] is, and it is # exactly for the empty cells that
    [nexts] lists. *)
Theorem board_str_read_back (board : Board) (nexts : list Coordinate) (t : text) (i j : Z) :
  wf_board board → board_str board nexts = Ok t → on_board i j = true →
  ∃ m, t !! mark_pos i j = Some m ∧
    getcell board i j = Ok (read_mark m) ∧
    (m = 35 ↔ getcell board i j = Ok None ∧ (i, j) ∈ nexts).
Proof.
  intros Hwf Ht Hij.
  destruct (board_str_text board nexts Hwf) as (t' & Ht' & _ & _ & _ & Hmarks).
  rewrite Ht in Ht'. injection Ht' as <-.
  exists (mark_of board nexts i j). split; [by apply Hmarks|].
  rewrite getcell_at by done. unfold mark_of.
  destruct (cell_at board i j) as [[]|];
    [split; [done|]; split; [done|by intros [? _]]..|].
  case_decide; (split; [done|]); split; try done.
  by intros [_ ?].
Qed.

Lemma board_str_read_back_witness :
  ∃ t m, board_str midgame_board [(5, 6)] = Ok t ∧
    t !! mark_pos 5 6 = Some m ∧
    getcell midgame_board 5 6 = Ok (read_mark m) ∧
    (m = 35 ↔ getcell midgame_board 5 6 = Ok None ∧ (5, 6) ∈ [(5, 6)]).
Proof.
  eassert (Ht : board_str midgame_board [(5, 6)] = Ok _) by (vm_compute; reflexivity).
  assert (Hwf : wf_board midgame_board) by (split; [reflexivity|repeat constructor]).
  destruct (board_str_read_back midgame_board [(5, 6)] _ 5 6 Hwf Ht eq_refl) as (m & Hm).
  eexists _, m. split; [exact Ht|exact Hm].
Defined.

(** ** A legal move, from the prompt to the next turn *)

(** X16. When the line read names a cell for which [is_valid_move] returns
    [True], the iteration applies the move: the cell gets the mover's piece,
    the mover gains at least two pieces and the opponent loses at least one,
    the occupied counter grows by one, and the counters stay those of the
    board.  Then either the game is over (a counter at zero or a full board)
    and the loop is left, or the turn goes to the other colour with the rest
    of the input. *)
Theorem legal_move_accepted (s : state) (str : list Z) (row col : Z) (input : list read) :
  counts_ok s → parse_coordinate str = inr (row, col) →
  is_valid_move row col (turn s) (board s) = Ok true →
  ∃ out c, play_iter s (Line str :: input) = Ok (out, c) ∧
    counts_ok (after c) ∧
    getcell (board (after c)) row col = Ok (Some (turn s)) ∧
    t_cnt (after c) = t_cnt s + 1 ∧
    own_cnt (turn s) (b_cnt s) (w_cnt s) + 2
      ≤ own_cnt (turn s) (b_cnt (after c)) (w_cnt (after c)) ∧
    own_cnt (switch_user (turn s)) (b_cnt (after c)) (w_cnt (after c)) + 1
      ≤ own_cnt (switch_user (turn s)) (b_cnt s) (w_cnt s) ∧
    ((c = GameEnd (after c) ∧ turn (after c) = turn s ∧
      (b_cnt (after c) = 0 ∨ w_cnt (after c) = 0 ∨ t_cnt (after c) = SIZE * SIZE)) ∨
     (c = Next (after c) input ∧ turn (after c) = switch_user (turn s) ∧
      b_cnt (after c) ≠ 0 ∧ w_cnt (after c) ≠ 0 ∧ t_cnt (after c) ≠ SIZE * SIZE)).
Proof.
  intros Hs Hparse Hvalid. pose proof Hs as (Hwf & _).
  pose proof (parse_coordinate_on_board _ _ _ Hparse) as Hrc.
  destruct (next_steps_some _ _ row col Hwf Hrc Hvalid) as (z & l & Hl).
  destruct (is_valid_move_fuel_spec (board s) (turn s) row col Hwf Hrc scan_fuel)
    as (v & Hv & Hiff); [done|].
  pose proof Hvalid as Hvalid'. unfold is_valid_move in Hvalid'.
  rewrite Hvalid' in Hv. injection Hv as <-.
  destruct Hiff as [[Hempty _] _]; [done|].
  destruct (take_action_legal (turn s) row col (board s) Hwf Hrc
              (b_cnt s) (w_cnt s) (t_cnt s) Hempty)
    as (board' & b' & w' & Htake & Hwf' & Hown & Hopp & _).
  assert (Hflips : 1 ≤ flipped_cells (turn s) (board s) board').
  { eapply flips_iff_legal_aux; [done|done|by rewrite getcell_at, Hempty|exact Htake|done]. }
  destruct (take_action_fuel_board (turn s) row col (board s) Hwf Hrc scan_fuel
              (b_cnt s) (w_cnt s) (t_cnt s))
    as (board1 & cnts1 & Htake1 & _ & Hplaced & _); [done|].
  pose proof Htake as Htake'. unfold take_action in Htake'.
  rewrite Htake' in Htake1. injection Htake1 as <- _.
  assert (Hiter : ∃ out c, play_iter s (Line str :: input) = Ok (out, c) ∧
            board (after c) = board' ∧ b_cnt (after c) = b' ∧ w_cnt (after c) = w' ∧
            t_cnt (after c) = t_cnt s + 1 ∧
            ((c = GameEnd (after c) ∧ turn (after c) = turn s ∧
              (check_end_status (turn s) b' w' (t_cnt s + 1)).2 = true) ∨
             (c = Next (after c) input ∧ turn (after c) = switch_user (turn s) ∧
              (check_end_status (turn s) b' w' (t_cnt s + 1)).2 = false))).
  { unfold play_iter. rewrite Hl, bind_Ok, Hparse. cbn [fst snd].
    rewrite Hvalid, bind_Ok, Htake, bind_Ok.
    destruct (check_end_status (turn s) b' w' (t_cnt s + 1)) as [msgs []];
      eexists _, _; (split; [reflexivity|]); simpl; split_and!; try done;
      [by left|by right]. }
  destruct Hiter as (out & c & Hiter & Hb & Hcb & Hcw & Hct & Hc).
  exists out, c. split; [done|]. split; [by eapply counts_ok_iter|].
  rewrite Hb, Hcb, Hcw, Hct. split; [by rewrite getcell_at, Hplaced|].
  split; [done|]. split; [lia|]. split; [lia|].
  destruct Hc as [(Hc & Ht & Hend)|(Hc & Ht & Hend)]; [left|right];
    (split; [done|]); (split; [done|]).
  - by apply check_end_status_spec in Hend.
  - assert (Hnot : ¬ (b' = 0 ∨ w' = 0 ∨ t_cnt s + 1 = SIZE * SIZE)).
    { rewrite <- (check_end_status_spec (turn s)). by rewrite Hend. }
    lia.
Qed.

Lemma legal_move_accepted_witness :
  ∃ out c, play_iter play_game_init [keyed 2 3] = Ok (out, c) ∧
    counts_ok (after c) ∧
    getcell (board (after c)) 2 3 = Ok (Some BLACK) ∧
    t_cnt (after c) = 4 + 1 ∧
    own_cnt BLACK 2 2 + 2 ≤ own_cnt BLACK (b_cnt (after c)) (w_cnt (after c)) ∧
    own_cnt (switch_user BLACK) (b_cnt (after c)) (w_cnt (after c)) + 1
      ≤ own_cnt (switch_user BLACK) 2 2 ∧
    ((c = GameEnd (after c) ∧ turn (after c) = BLACK ∧
      (b_cnt (after c) = 0 ∨ w_cnt (after c) = 0 ∨ t_cnt (after c) = SIZE * SIZE)) ∨
     (c = Next (after c) [] ∧ turn (after c) = switch_user BLACK ∧
      b_cnt (after c) ≠ 0 ∧ w_cnt (after c) ≠ 0 ∧ t_cnt (after c) ≠ SIZE * SIZE)).
Proof.
  apply (legal_move_accepted play_game_init [100; 51] 2 3 []).
  - split; [split; [reflexivity|repeat constructor]|]. split; [reflexivity|]. split; reflexivity.
  - reflexivity.
  - vm_compute. reflexivity.
Defined.

(** ** Both colours play by the same rules *)

Section Colours.





Lemma switch_user_twice turn : switch_user (switch_user turn) = turn.
Proof. by destruct turn. Qed.










End Colours.


(** ** Upper case and surrounding blanks in a typed move *)

Lemma py_lstrip_spaces ws s :
  Forall (λ c, py_isspace c = true) ws → py_lstrip (ws ++ s) = py_lstrip s.
Proof.
  induction 1 as [|c ws Hc _ IH]; [done|]. simpl. by rewrite Hc.
Qed.

Lemma py_lstrip_stop c s : py_isspace c = false → py_lstrip (c :: s) = c :: s.
Proof. intros Hc. simpl. by rewrite Hc. Qed.

Lemma py_isspace_spec c :
  py_isspace c = true ↔ 9 ≤ c ≤ 13 ∨ 28 ≤ c ≤ 32.
Proof. unfold py_isspace. rewrite orb_true_iff. lia. Qed.

Lemma py_isspace_not c : 32 < c → py_isspace c = false.
Proof.
  intros Hc. apply not_true_is_false. rewrite py_isspace_spec. lia.
Qed.

Lemma py_lower_app s1 s2 : py_lower (s1 ++ s2) = py_lower s1 ++ py_lower s2.
Proof. apply fmap_app. Qed.

Lemma py_lower_cons c s :
  py_lower (c :: s) = (if (65 <=? c) && (c <=? 90) then c + 32 else c) :: py_lower s.
Proof. done. Qed.

Lemma py_lower_space ws :
  Forall (λ c, py_isspace c = true) ws → py_lower ws = ws.
Proof.
  induction 1 as [|c ws Hc _ IH]; [done|]. unfold py_lower in *. rewrite fmap_cons, IH.
  f_equal. apply py_isspace_spec in Hc.
  destruct ((65 <=? c) && (c <=? 90)) eqn:E; [exfalso; lia|done].
Qed.

(** X18. A typed move may be in upper or lower case and may have blanks
    around it (the newline of the line read included): after
    [lower().strip()], a letter from a to h or A to H followed by a digit
    from 1 to 8 is parsed to the coordinate it names. *)
Theorem parse_line_accepts (ws1 ws2 : text) (letter row col : Z) :
  Forall (λ c, py_isspace c = true) ws1 → Forall (λ c, py_isspace c = true) ws2 →
  on_board row col = true → letter = 97 + col ∨ letter = 65 + col →
  parse_line (ws1 ++ [letter; 49 + row] ++ ws2) = inr (row, col).
Proof.
  intros Hws1 Hws2 Hrc Hletter. pose proof Hrc as [Hr Hc]%on_board_spec. unfold SIZE in *.
  unfold parse_line.
  assert (Hlow : py_lower (ws1 ++ [letter; 49 + row] ++ ws2)
                 = ws1 ++ [97 + col; 49 + row] ++ ws2).
  { assert (Hl : (if (65 <=? letter) && (letter <=? 90) then letter + 32 else letter)
                 = 97 + col).
    { destruct Hletter as [-> | ->]; destruct (_ && _) eqn:E; lia. }
    assert (Hd : (if (65 <=? 49 + row) && (49 + row <=? 90) then 49 + row + 32 else 49 + row)
                 = 49 + row).
    { destruct ((65 <=? 49 + row) && (49 + row <=? 90)) eqn:E; lia. }
    change ([letter; 49 + row] ++ ws2) with (letter :: (49 + row) :: ws2).
    rewrite py_lower_app, !py_lower_cons, Hl, Hd, !py_lower_space by done. done. }
  assert (Hstrip : py_strip (ws1 ++ [97 + col; 49 + row] ++ ws2) = [97 + col; 49 + row]).
  { unfold py_strip. rewrite py_lstrip_spaces by done.
    change ([97 + col; 49 + row] ++ ws2) with ((97 + col) :: (49 + row) :: ws2).
    rewrite py_lstrip_stop by (apply py_isspace_not; lia).
    rewrite !reverse_cons, <- !app_assoc.
    rewrite py_lstrip_spaces by (by apply Forall_reverse).
    change ([49 + row] ++ [97 + col]) with ((49 + row) :: [97 + col]).
    by rewrite py_lstrip_stop by (apply py_isspace_not; lia). }
  rewrite Hlow, Hstrip. by apply parse_keyed.
Qed.

Lemma parse_line_accepts_witness :
  parse_line ([32; 32] ++ [71; 49 + 5] ++ [13; 10]) = inr (5, 6).
Proof.
  apply (parse_line_accepts [32; 32] [13; 10] 71 5 6).
  - repeat constructor.
  - repeat constructor.
  - reflexivity.
  - right. reflexivity.
Defined.
